(** * ChessEngine: the search subsystem and its transposition table

    A shallow embedding of [src/TranspositionTable.cpp] and [src/Search.cpp].

    - C++ [int] is a 32-bit two's-complement integer, modelled as a [Z] that
      every arithmetic operation brings back into range with [int32];
      [long int] is modelled the same way at 64 bits.
    - [TranspositionTable::entries] is a fixed array: a total function from
      slot numbers to entries.
    - The board, the move generator and the evaluator are collaborators that
      live outside the two files; they are taken as an interface
      ([Collaborators]). *)

From Stdlib Require Import ZArith Lia Bool List.
From stdpp Require Import base list.
Import ListNotations.

Local Open Scope Z_scope.

(** ** Machine integers *)

Definition INT32_MIN : Z := -2147483648.
Definition INT32_MAX : Z := 2147483647.

Definition int32 (z : Z) : Z := (z + 2147483648) mod 4294967296 - 2147483648.
Definition int64 (z : Z) : Z :=
  (z + 9223372036854775808) mod 18446744073709551616 - 9223372036854775808.

Definition add32 (a b : Z) : Z := int32 (a + b).
Definition sub32 (a b : Z) : Z := int32 (a - b).
Definition neg32 (a : Z) : Z := int32 (- a).
Definition mul32 (a b : Z) : Z := int32 (a * b).
Definition abs32 (a : Z) : Z := int32 (Z.abs a).
Definition shl32 (a n : Z) : Z := int32 (Z.shiftl a n).
Definition labs (a : Z) : Z := int64 (Z.abs a).

Definition in_int (z : Z) : Prop := INT32_MIN <= z <= INT32_MAX.

(** ** Moves *)

Record Move := mkMove {
  start : Z;
  end_ : Z;
  flag : Z;
  promotionType : Z
}.

(** [Move{}]: the value-initialised move. *)
Definition Move_zero : Move := mkMove 0 0 0 0.

Definition Move_eqb (a b : Move) : bool :=
  (start a =? start b) && (end_ a =? end_ b) &&
  (flag a =? flag b) && (promotionType a =? promotionType b).

(** ** The transposition table (src/TranspositionTable.cpp) *)

Module TranspositionTable.

Definition MATE_SCORE : Z := 65536.

Inductive NodeType := EMPTY | EXACT | LOWERBOUND | UPPERBOUND.

Definition NodeType_eqb (a b : NodeType) : bool :=
  match a, b with
  | EMPTY, EMPTY | EXACT, EXACT
  | LOWERBOUND, LOWERBOUND | UPPERBOUND, UPPERBOUND => true
  | _, _ => false
  end.

(** A bound is a lower or an upper bound: what is neither empty nor exact. *)
Definition is_bound (t : NodeType) : Prop := t = LOWERBOUND \/ t = UPPERBOUND.

Record Entry := mkEntry {
  key : Z;
  bestMove : Move;
  depth : Z;
  score : Z;
  nodeType : NodeType
}.

Definition Entry_zero : Entry := mkEntry 0 Move_zero 0 0 EMPTY.

Definition with_score (e : Entry) (s : Z) : Entry :=
  mkEntry (key e) (bestMove e) (depth e) s (nodeType e).

Record Table := mkTable {
  entries : Z -> Entry;
  reads : Z;
  writes : Z;
  collisions : Z
}.

(** A table as the process starts with it: every slot value-initialised. *)
Definition Table_zero : Table := mkTable (fun _ => Entry_zero) 0 0 0.

Section Sized.

Variable TT_SIZE : Z.

(** [int index = abs(key) % TT_SIZE;] *)
Definition slot (k : Z) : Z := int32 (Z.rem (labs k) TT_SIZE).

Definition sign_of (s : Z) : Z := if 0 <? s then 1 else -1.

Definition getEntry (k ply : Z) (t : Table) : Entry * Table :=
  let index := slot k in
  let entry := entries t index in
  let entry :=
    if abs32 (score entry) =? MATE_SCORE
    then with_score entry (mul32 (sign_of (score entry)) (sub32 MATE_SCORE ply))
    else entry in
  (entry, mkTable (entries t) (add32 (reads t) 1) (writes t) (collisions t)).

Definition contains (k : Z) (t : Table) : bool * Table :=
  let index := slot k in
  let exists_ := negb (NodeType_eqb (nodeType (entries t index)) EMPTY) in
  let sameKey := key (entries t index) =? k in
  let t' :=
    if exists_ && negb sameKey
    then mkTable (entries t) (reads t) (writes t) (add32 (collisions t) 1)
    else t in
  (exists_ && sameKey, t').

Definition write (index : Z) (entry : Entry) (t : Table) : Table :=
  mkTable (fun i => if i =? index then entry else entries t i)
          (reads t) (add32 (writes t) 1) (collisions t).

(** The first statement of [setEntry]: mate scores within the horizon are
    stored as plus or minus [MATE_SCORE]. *)
Definition normalize (entry : Entry) (ply : Z) : Entry :=
  if sub32 MATE_SCORE (add32 (depth entry) ply) <=? abs32 (score entry)
  then with_score entry (mul32 (sign_of (score entry)) MATE_SCORE)
  else entry.

Definition setEntry (k : Z) (entry : Entry) (ply : Z) (t : Table) : Table :=
  let index := slot k in
  let entry := normalize entry ply in
  let savedType := nodeType (entries t index) in
  let newType := nodeType entry in
  if negb (NodeType_eqb savedType EMPTY) then
    if (negb (NodeType_eqb savedType EXACT) && negb (NodeType_eqb newType EXACT))
       || (NodeType_eqb savedType EXACT && NodeType_eqb newType EXACT)
    then
      if depth (entries t index) <=? depth entry then write index entry t else t
    else if negb (NodeType_eqb savedType EXACT) then write index entry t
    else t
  else write index entry t.

Definition resetCounters (t : Table) : Table := mkTable (entries t) 0 0 0.

End Sized.

End TranspositionTable.

(** ** The search (src/Search.cpp) *)

Module TT := TranspositionTable.
Import TranspositionTable (MATE_SCORE, NodeType, EMPTY, EXACT, LOWERBOUND, UPPERBOUND).

(** What [Search.cpp] takes from the rest of the engine: the fields of
    [ChessBoard] it reads, [makeMove] and [unMakeMove], the move generator,
    the evaluator with its material table, and the constants of the headers.
    [stop_at n] is the value of the cooperative stop flag (set by the
    controlling thread) as the worker sees it at its [n]-th read. *)
Class Collaborators := {
  ChessBoard : Type;
  hashCode : ChessBoard -> Z;
  sideToMove : ChessBoard -> Z;
  halfMoveClock : ChessBoard -> Z;
  squares_type : ChessBoard -> Z -> Z;
  positionHistory : ChessBoard -> list Z;
  irreversibleIndices : ChessBoard -> list Z;
  makeMove : ChessBoard -> Move -> ChessBoard;
  unMakeMove : ChessBoard -> ChessBoard;
  pseudoLegalMoves : ChessBoard -> list Move;
  tacticalMoves : ChessBoard -> list Move;
  inCheck : ChessBoard -> Z -> bool;
  invertColor : Z -> Z;
  evaluate : ChessBoard -> Z;
  mg_value : Z -> Z;
  TT_SIZE : Z;
  PAWN : Z;
  QUEEN : Z;
  NULL_MOVE : Move;
  stop_at : nat -> bool
}.

Record ScoredMove := mkScoredMove {
  move : Move;
  score : Z
}.

Section SearchDefs.

Context {C : Collaborators}.

(** The members of [Search] together with the static table [Search::tt] and
    the number of reads of [stop] made so far. *)
Record Search := mkSearch {
  board : ChessBoard;
  tt : TT.Table;
  killerMoves : Z -> Z -> Move;
  killerMoveIndexOne : bool;
  history : Z -> Z -> Z -> Z;
  lastPV : list Move;
  polls : nat
}.

(** *** A state monad for the member functions; [None] is "out of fuel". *)

Definition M (A : Type) : Type := Search -> option (A * Search).

Definition ret {A : Type} (a : A) : M A := fun s => Some (a, s).

Definition bind {A B : Type} (m : M A) (f : A -> M B) : M B :=
  fun s => match m s with
           | Some (a, s') => f a s'
           | None => None
           end.

Definition out_of_fuel {A : Type} : M A := fun _ => None.

Notation "x <- m ;; k" := (bind m (fun x => k))
  (at level 100, m at next level, right associativity).
Notation "m ;;; k" := (bind m (fun _ => k))
  (at level 100, right associativity).

Definition get : M Search := fun s => Some (s, s).

Definition with_board (s : Search) (b : ChessBoard) : Search :=
  mkSearch b (tt s) (killerMoves s) (killerMoveIndexOne s)
           (history s) (lastPV s) (polls s).

Definition with_tt (s : Search) (t : TT.Table) : Search :=
  mkSearch (board s) t (killerMoves s) (killerMoveIndexOne s)
           (history s) (lastPV s) (polls s).

Definition with_killers (s : Search) (k : Z -> Z -> Move) (one : bool)
  : Search :=
  mkSearch (board s) (tt s) k one (history s) (lastPV s) (polls s).

Definition with_history (s : Search) (h : Z -> Z -> Z -> Z) : Search :=
  mkSearch (board s) (tt s) (killerMoves s) (killerMoveIndexOne s)
           h (lastPV s) (polls s).

(** The state after one more read of the stop flag. *)
Definition polled (s : Search) : Search :=
  mkSearch (board s) (tt s) (killerMoves s) (killerMoveIndexOne s)
           (history s) (lastPV s) (S (polls s)).

Definition read_stop : M bool := fun s => Some (stop_at (polls s), polled s).

Definition set_board (b : ChessBoard) : M unit :=
  fun s => Some ((), with_board s b).

Definition set_tt (t : TT.Table) : M unit :=
  fun s => Some ((), with_tt s t).

Definition set_killers (k : Z -> Z -> Move) (one : bool) : M unit :=
  fun s => Some ((), with_killers s k one).

Definition set_history (h : Z -> Z -> Z -> Z) : M unit :=
  fun s => Some ((), with_history s h).

(** [board.makeMove(move)] and [board.unMakeMove()] *)
Definition board_makeMove (m : Move) : M unit :=
  fun s => Some ((), with_board s (makeMove (board s) m)).

Definition board_unMakeMove : M unit :=
  fun s => Some ((), with_board s (unMakeMove (board s))).

(** [tt.contains], [tt.getEntry], [tt.setEntry] on the shared table *)
Definition tt_contains (k : Z) : M bool :=
  fun s => let r := TT.contains TT_SIZE k (tt s) in
           Some (fst r, with_tt s (snd r)).

Definition tt_getEntry (k ply : Z) : M TT.Entry :=
  fun s => let r := TT.getEntry TT_SIZE k ply (tt s) in
           Some (fst r, with_tt s (snd r)).

Definition tt_setEntry (k : Z) (e : TT.Entry) (ply : Z) : M unit :=
  fun s => Some ((), with_tt s (TT.setEntry TT_SIZE k e ply (tt s))).

(** *** [Search::getTransposition]

    The reference parameters [score], [alpha], [beta] and [hashMove] are
    returned next to the boolean result. *)
Record Probe := mkProbe {
  hit : bool;
  p_score : Z;
  p_alpha : Z;
  p_beta : Z;
  p_hashMove : Move
}.

Definition getTransposition (hash depth ply score alpha beta : Z)
           (hashMove : Move) : M Probe :=
  c <- tt_contains hash ;;
  if c then
    entry <- tt_getEntry hash ply ;;
    if depth <=? TT.depth entry then
      match TT.nodeType entry with
      | EXACT => ret (mkProbe true (TT.score entry) alpha beta hashMove)
      | UPPERBOUND =>
          if TT.score entry <=? alpha
          then ret (mkProbe true (TT.score entry) alpha beta hashMove)
          else ret (mkProbe false score alpha (Z.min beta (TT.score entry))
                            (TT.bestMove entry))
      | LOWERBOUND =>
          if beta <=? TT.score entry
          then ret (mkProbe true (TT.score entry) alpha beta hashMove)
          else ret (mkProbe false score (Z.max alpha (TT.score entry)) beta
                            (TT.bestMove entry))
      | EMPTY => ret (mkProbe false score alpha beta hashMove)
      end
    else ret (mkProbe false score alpha beta hashMove)
  else ret (mkProbe false score alpha beta hashMove).

(** *** Move ordering *)

Definition uint64 (z : Z) : Z := z mod 18446744073709551616.

(** [lastPV.size() - 1 <= ply && lastPV[ply] == move], the subtraction and
    the comparison being done on [size_t]. When the first conjunct holds
    with [ply] past the end, the read [lastPV[ply]] is out of bounds; the
    model then answers [false]. *)
Definition pvMatch (pv : list Move) (ply : Z) (m : Move) : bool :=
  (uint64 (Z.of_nat (length pv) - 1) <=? uint64 ply) &&
  match pv !! Z.to_nat ply with
  | Some m' => Move_eqb m' m
  | None => false
  end.

Definition isQuietFlag (m : Move) : bool := (flag m =? 0) || (7 <=? flag m).

(** The body of the loop of [Search::scoreMoves]. *)
Definition scoreMove (s : Search) (ply : Z) (hashMove m : Move) : Z :=
  if pvMatch (lastPV s) ply m then shl32 1 31
  else if Move_eqb m hashMove then shl32 1 30
  else if negb (promotionType m =? 0)
  then sub32 (mg_value (promotionType m - 1)) (mg_value 0)
  else if isQuietFlag m then
    if Move_eqb m (killerMoves s ply 0) || Move_eqb m (killerMoves s ply 1)
    then shl32 1 14
    else history s (sideToMove (board s)) (start m) (end_ m)
  else if flag m =? 6 then shl32 1 16
  else
    let agressor := mg_value (squares_type (board s) (start m) - 1) in
    let victim := mg_value (flag m - 1) in
    let captureScore := add32 0 (sub32 victim agressor) in
    let captureScore := if captureScore =? 0 then 1 else captureScore in
    let captureScore :=
      if 0 <? captureScore then shl32 captureScore 16 else captureScore in
    add32 0 captureScore.

Definition scoreMoves (s : Search) (moves : list Move) (ply : Z)
           (hashMove : Move) : list ScoredMove :=
  map (fun m => mkScoredMove m (scoreMove s ply hashMove m)) moves.

Definition scoreTacticalMove (s : Search) (hashMove m : Move) : Z :=
  if Move_eqb m hashMove then shl32 1 30
  else if negb (promotionType m =? 0)
  then sub32 (mg_value (promotionType m - 1)) (mg_value 0)
  else sub32 (mg_value (flag m - 1))
             (mg_value (squares_type (board s) (start m) - 1)).

Definition scoreTacticalMoves (s : Search) (moves : list Move)
           (hashMove : Move) : list ScoredMove :=
  map (fun m => mkScoredMove m (scoreTacticalMove s hashMove m)) moves.

(** The scan of [Search::selectMove]: [rest] is [moves[i..]]. *)
Fixpoint scanMax (rest : list ScoredMove) (i selectedIndex : nat)
         (selected : ScoredMove) : nat * ScoredMove :=
  match rest with
  | [] => (selectedIndex, selected)
  | x :: rest' =>
      if score selected <? score x
      then scanMax rest' (S i) i x
      else scanMax rest' (S i) selectedIndex selected
  end.

(** [Search::selectMove]; the vector is passed by reference, so the swapped
    vector is returned with the move. The callers keep [index] in range. *)
Definition selectMove (moves : list ScoredMove) (index : nat)
  : Move * list ScoredMove :=
  let first := nth index moves (mkScoredMove Move_zero 0) in
  let '(selectedIndex, selected) :=
    scanMax (drop (S index) moves) (S index) index first in
  let moves := <[selectedIndex := first]> moves in
  let moves := <[index := selected]> moves in
  (move selected, moves).

(** [Search::storeKillerMove] *)
Definition storeKillerMove (m : Move) (ply : Z) : M unit :=
  s <- get ;;
  if isQuietFlag m && (promotionType m =? 0) then
    if Move_eqb (killerMoves s ply 0) m then ret ()
    else if Move_eqb (killerMoves s ply 1) m then ret ()
    else
      let put (k : Z) : Z -> Z -> Move := fun p i =>
        if (p =? ply) && (i =? k) then m else killerMoves s p i in
      if killerMoveIndexOne s || Move_eqb (killerMoves s ply 0) NULL_MOVE
      then set_killers (put 0) false
      else set_killers (put 1) true
  else ret ().

(** [history[board.sideToMove][move.start][move.end] += depth * depth;] *)
Definition bumpHistory (m : Move) (depth : Z) : M unit :=
  s <- get ;;
  let side := sideToMove (board s) in
  set_history (fun c a b =>
    if (c =? side) && (a =? start m) && (b =? end_ m)
    then add32 (history s c a b) (mul32 depth depth)
    else history s c a b).

(** *** Draw detection in the move loop of [alphaBeta]

    [b] is the board after [makeMove]. *)
Definition fiftyMoveDraw (b : ChessBoard) (m : Move) : bool :=
  (100 <=? halfMoveClock b) &&
  negb ((squares_type b (start m) =? PAWN) ||
        ((1 <=? flag m) && (flag m <=? 5))).

(** The [for] loop over [board.positionHistory]; [n] bounds the number of
    iterations. The result is the final value of [draw]. *)
Fixpoint repetitionLoop (b : ChessBoard) (n : nat) (j repetitions : Z) : bool :=
  match n with
  | O => false
  | S n' =>
      if (0 <=? j) &&
         match last (irreversibleIndices b) with
         | None => true
         | Some k => k <? j
         end
      then
        let repetitions :=
          if match positionHistory b !! Z.to_nat j with
             | Some h => h =? hashCode b
             | None => false
             end
          then add32 repetitions 1 else repetitions in
        if repetitions =? 2 then true
        else repetitionLoop b n' (sub32 j 2) repetitions
      else false
  end.

Definition threefoldDraw (b : ChessBoard) : bool :=
  let size := length (positionHistory b) in
  repetitionLoop b size (int32 (uint64 (Z.of_nat size - 4))) 1.

(** The pair [(draw, threefold)] after the two tests. *)
Definition drawFlags (b : ChessBoard) (m : Move) : bool * bool :=
  if fiftyMoveDraw b m then (true, false)
  else let r := threefoldDraw b in (r, r).

(** *** [Search::quiesce]

    [quiesceLoop] is the [for] loop over the scored moves: [n] is the number
    of iterations left, [i] the loop index; [rec] is the recursive call. *)
Fixpoint quiesceLoop (rec : Z -> Z -> Z -> Z -> M Z)
         (beta ply depth : Z) (n i : nat) (moves : list ScoredMove)
         (alpha bestScore : Z) (bestMove : Move) (nodeType : NodeType)
  : M Z :=
  match n with
  | O =>
      s <- get ;;
      tt_setEntry (hashCode (board s))
        (TT.mkEntry (hashCode (board s)) bestMove depth bestScore nodeType)
        ply ;;;
      ret alpha
  | S n' =>
      let '(move, moves) := selectMove moves i in
      board_makeMove move ;;;
      s <- get ;;
      if inCheck (board s) (invertColor (sideToMove (board s))) then
        board_unMakeMove ;;;
        quiesceLoop rec beta ply depth n' (S i) moves
                    alpha bestScore bestMove nodeType
      else
        r <- rec (neg32 beta) (neg32 alpha) (add32 ply 1) (sub32 depth 1) ;;
        let score := neg32 r in
        board_unMakeMove ;;;
        stop <- read_stop ;;
        if stop then ret 0
        else if beta <=? score then
          s <- get ;;
          tt_setEntry (hashCode (board s))
            (TT.mkEntry (hashCode (board s)) move depth score LOWERBOUND)
            ply ;;;
          ret score
        else if alpha <? score then
          quiesceLoop rec beta ply depth n' (S i) moves
                      score score move EXACT
        else if bestScore <? score then
          quiesceLoop rec beta ply depth n' (S i) moves
                      alpha score move nodeType
        else
          quiesceLoop rec beta ply depth n' (S i) moves
                      alpha bestScore bestMove nodeType
  end.

Fixpoint quiesce (fuel : nat) (alpha beta ply depth : Z) : M Z :=
  match fuel with
  | O => out_of_fuel
  | S fuel' =>
      stop <- read_stop ;;
      if stop then ret 0 else
      s <- get ;;
      let stand_pat := evaluate (board s) in
      if beta <=? stand_pat then ret beta else
      let alpha := if alpha <? stand_pat then stand_pat else alpha in
      if add32 stand_pat (mg_value (QUEEN - 1)) <? alpha then ret alpha else
      p <- getTransposition (hashCode (board s)) depth ply 0 alpha beta
                            Move_zero ;;
      if hit p then ret (p_score p) else
      s <- get ;;
      let moves :=
        scoreTacticalMoves s (tacticalMoves (board s)) (p_hashMove p) in
      quiesceLoop (quiesce fuel') (p_beta p) ply depth (length moves) 0 moves
                  (p_alpha p) INT32_MIN Move_zero UPPERBOUND
  end.

(** *** [Search::alphaBeta] *)

(** [const int score = (draw) ? 0 : -alphaBeta(depth - 1, -beta, -alpha, ply + 1);] *)
Definition childScore (rec : Z -> Z -> Z -> Z -> M Z)
           (depth alpha beta ply : Z) (draw : bool) : M Z :=
  if draw then ret 0
  else r <- rec (sub32 depth 1) (neg32 beta) (neg32 alpha) (add32 ply 1) ;;
       ret (neg32 r).

(** The body of [if (score >= beta)] in the move loop of [alphaBeta]. *)
Definition betaCutoff (move : Move) (depth ply score : Z) (threefold : bool)
  : M Z :=
  (if isQuietFlag move then
     storeKillerMove move ply ;;;
     bumpHistory move depth
   else ret ()) ;;;
  (if negb threefold then
     s <- get ;;
     tt_setEntry (hashCode (board s))
       (TT.mkEntry (hashCode (board s)) move depth score LOWERBOUND)
       ply
   else ret ()) ;;;
  ret score.

(** The [for] loop over the scored moves, as in [quiesceLoop]. *)
Fixpoint alphaBetaLoop (rec : Z -> Z -> Z -> Z -> M Z)
         (depth beta ply : Z) (n i : nat) (moves : list ScoredMove)
         (alpha bestScore : Z) (bestMove : Move) (nodeType : NodeType)
         (noStore hasLegalMoves : bool) : M Z :=
  match n with
  | O =>
      s <- get ;;
      if negb hasLegalMoves then
        if inCheck (board s) (sideToMove (board s))
        then ret (neg32 (sub32 MATE_SCORE ply))
        else ret 0
      else
        (if negb noStore then
           tt_setEntry (hashCode (board s))
             (TT.mkEntry (hashCode (board s)) bestMove depth bestScore nodeType)
             ply
         else ret ()) ;;;
        ret alpha
  | S n' =>
      let '(move, moves) := selectMove moves i in
      board_makeMove move ;;;
      s <- get ;;
      if inCheck (board s) (invertColor (sideToMove (board s))) then
        board_unMakeMove ;;;
        alphaBetaLoop rec depth beta ply n' (S i) moves
                      alpha bestScore bestMove nodeType noStore hasLegalMoves
      else
        let '(draw, threefold) := drawFlags (board s) move in
        score <- childScore rec depth alpha beta ply draw ;;
        board_unMakeMove ;;;
        stop <- read_stop ;;
        if stop then ret 0
        else if beta <=? score then betaCutoff move depth ply score threefold
        else if alpha <? score then
          alphaBetaLoop rec depth beta ply n' (S i) moves
                        score score move EXACT noStore true
        else if bestScore <? score then
          alphaBetaLoop rec depth beta ply n' (S i) moves
                        alpha score move nodeType threefold true
        else
          alphaBetaLoop rec depth beta ply n' (S i) moves
                        alpha bestScore bestMove nodeType noStore true
  end.

Fixpoint alphaBeta (fuel : nat) (depth alpha beta ply : Z) : M Z :=
  match fuel with
  | O => out_of_fuel
  | S fuel' =>
      stop <- read_stop ;;
      if stop then ret 0 else
      if depth =? 0 then quiesce fuel' alpha beta ply 0 else
      s <- get ;;
      p <- getTransposition (hashCode (board s)) depth ply 0 alpha beta
                            Move_zero ;;
      if hit p then ret (p_score p) else
      let alpha := Z.max (p_alpha p) (add32 (-MATE_SCORE) ply) in
      let beta := Z.min (p_beta p) (sub32 MATE_SCORE ply) in
      if beta <=? alpha then ret alpha else
      s <- get ;;
      let moves := scoreMoves s (pseudoLegalMoves (board s)) ply (p_hashMove p) in
      alphaBetaLoop (alphaBeta fuel') depth beta ply (length moves) 0 moves
                    alpha INT32_MIN Move_zero UPPERBOUND false false
  end.

(** [Search::threadedSearch], without the hand-shake with the controller. *)
Definition threadedSearch (fuel : nat) (depth : Z) : M Z :=
  alphaBeta fuel depth (INT32_MIN + 1) INT32_MAX 0.

End SearchDefs.

(** ** Table-driven games

    Small concrete instances of [Collaborators], used to run the search:
    a position is the stack of the nodes entered so far (the root is node 0
    and is not on the stack), and a move leads to the node named by its
    [end_] field. *)

Record TableGame := mkTableGame {
  g_hash : Z -> Z;
  g_eval : Z -> Z;
  g_moves : Z -> list Move;
  g_tactical : Z -> list Move;
  g_check : Z -> Z -> bool;
  g_clock : Z -> Z;
  g_piece : Z -> Z -> Z;
  g_past : list Z;
  g_irreversible : list Z;
  g_mg : Z -> Z;
  g_size : Z;
  g_stop : nat -> bool
}.

Definition g_node (b : list Z) : Z := hd 0 b.

Definition tableGame (G : TableGame) : Collaborators := {|
  ChessBoard := list Z;
  hashCode b := g_hash G (g_node b);
  sideToMove b := Z.of_nat (length b) mod 2;
  halfMoveClock b := g_clock G (g_node b);
  squares_type b sq := g_piece G (g_node b) sq;
  positionHistory b :=
    match b with
    | [] => g_past G
    | _ :: b' => g_past G ++ map (g_hash G) (0 :: rev b')
    end;
  irreversibleIndices _ := g_irreversible G;
  makeMove b m := end_ m :: b;
  unMakeMove b := tl b;
  pseudoLegalMoves b := g_moves G (g_node b);
  tacticalMoves b := g_tactical G (g_node b);
  inCheck b c := g_check G (g_node b) c;
  invertColor c := 1 - c;
  evaluate b := g_eval G (g_node b);
  mg_value := g_mg G;
  TT_SIZE := g_size G;
  PAWN := 1;
  QUEEN := 5;
  NULL_MOVE := Move_zero;
  stop_at := g_stop G
|}.

(** The state of a fresh [Search] object on the root, with an empty table. *)
Definition freshSearch (G : TableGame) : @Search (tableGame G) :=
  @mkSearch (tableGame G) [] TT.Table_zero (fun _ _ => Move_zero) false
            (fun _ _ _ => 0) [] O.

(** A material table: pawn, knight, bishop, rook, queen, king. *)
Definition material (i : Z) : Z :=
  nth (Z.to_nat i) [82; 337; 365; 477; 1025; 0] 0.

(** Game 1. The root has two quiet moves, to A (node 1) and to B (node 2).
    In B the opponent can capture into C (node 3), and in C the capture is
    answered by a capturing promotion into D (node 4). *)
Definition game1 : TableGame := {|
  g_hash n := 1000 + n;
  g_eval n := nth (Z.to_nat n) [0; -100; -300; -1000; -968] 0;
  g_moves n := if n =? 0 then [mkMove 10 1 0 0; mkMove 11 2 0 0]
               else if n =? 2 then [mkMove 12 3 5 0]
               else if n =? 3 then [mkMove 13 4 5 5]
               else [];
  g_tactical n := if n =? 2 then [mkMove 12 3 5 0]
                  else if n =? 3 then [mkMove 13 4 5 5]
                  else [];
  g_check _ _ := false;
  g_clock _ := 0;
  g_piece _ _ := 1;
  g_past := [];
  g_irreversible := [];
  g_mg := material;
  g_size := 1024;
  g_stop _ := false
|}.

(** Game 2. The only move of the root leads to node 1, whose hash (77) is
    the hash of the position four plies back: the history at the root is
    [77; 5; 6], and [makeMove] appends the hash of the root (50). *)
Definition game2 : TableGame := {|
  g_hash n := if n =? 0 then 50 else if n =? 1 then 77 else 1000 + n;
  g_eval _ := 300;
  g_moves n := if n =? 0 then [mkMove 1 1 0 0] else [];
  g_tactical _ := [];
  g_check _ _ := false;
  g_clock _ := 0;
  g_piece _ _ := 4;
  g_past := [77; 5; 6];
  g_irreversible := [];
  g_mg := material;
  g_size := 1024;
  g_stop _ := false
|}.

(** Game 3. Four moves at the root: a quiet rook move, a queen taking a
    pawn, a promotion to a queen and a move with flag 6. The queen stands on
    square 3, rooks elsewhere; the half-move clock is at 100. *)
Definition game3_quiet : Move := mkMove 1 2 0 0.
Definition game3_queen_takes_pawn : Move := mkMove 3 4 1 0.
Definition game3_promotion : Move := mkMove 5 6 0 5.
Definition game3_flag6 : Move := mkMove 7 8 6 0.

Definition game3 : TableGame := {|
  g_hash n := 2000 + n;
  g_eval _ := 0;
  g_moves n := if n =? 0
               then [game3_quiet; game3_queen_takes_pawn;
                     game3_promotion; game3_flag6]
               else [];
  g_tactical _ := [];
  g_check _ _ := false;
  g_clock _ := 100;
  g_piece _ sq := if sq =? 3 then 5 else 4;
  g_past := [];
  g_irreversible := [];
  g_mg := material;
  g_size := 1024;
  g_stop _ := false
|}.

(** The fresh state of game 3 with a principal variation of two moves left
    by the previous iteration. *)
Definition game3_second_iteration : @Search (tableGame game3) :=
  @mkSearch (tableGame game3) [] TT.Table_zero (fun _ _ => Move_zero) false
            (fun _ _ _ => 0) [game3_quiet; mkMove 9 9 0 0] O.

(** ** Vocabulary for the properties of the search *)

Section SearchVocabulary.

Context {C : Collaborators}.

(** A call returns, and returns with the board it was given, on the
    arguments and boards that satisfy [P]. *)
Definition returns_restoring (rec : Z -> Z -> Z -> Z -> M Z)
           (P : Z -> Z -> Z -> Z -> ChessBoard -> Prop) : Prop :=
  forall a b c d s,
    P a b c d (board s) ->
    exists r s', rec a b c d s = Some (r, s') /\ board s' = board s.

(** When the last read of the stop flag made before a call returned saw the
    flag set, the call returned 0; and a call reads the flag at least
    once. *)
Definition zero_when_stopped (rec : Z -> Z -> Z -> Z -> M Z) : Prop :=
  forall a b c d s r s',
    rec a b c d s = Some (r, s') ->
    (polls s < polls s')%nat /\
    (stop_at (pred (polls s')) = true -> r = 0).

End SearchVocabulary.

(** A measure for game 1: the number of captures that can still follow. *)
Definition game1_mu (b : list Z) : nat :=
  let n := g_node b in
  if n =? 0 then 2%nat else if n =? 2 then 2%nat
  else if n =? 3 then 1%nat else 0%nat.

(** Game 1 with the stop flag raised after its first read. *)
Definition game1_stopped : TableGame := {|
  g_hash := g_hash game1;
  g_eval := g_eval game1;
  g_moves := g_moves game1;
  g_tactical := g_tactical game1;
  g_check := g_check game1;
  g_clock := g_clock game1;
  g_piece := g_piece game1;
  g_past := g_past game1;
  g_irreversible := g_irreversible game1;
  g_mg := g_mg game1;
  g_size := g_size game1;
  g_stop n := Nat.leb 1 n
|}.

(** The fresh state of game 1 after one entry has been stored for the root
    (hash 1000) at ply 0. *)
Definition game1_cached (e : TT.Entry) : @Search (tableGame game1) :=
  with_tt (freshSearch game1) (TT.setEntry 1024 1000 e 0 TT.Table_zero).

Section BoardVocabulary.

Context {C : Collaborators}.

(** Whenever the call returns, the board is the one it was given. *)
Definition keeps_board (rec : Z -> Z -> Z -> Z -> M Z) : Prop :=
  forall a b c d s r s',
    rec a b c d s = Some (r, s') -> board s' = board s.

End BoardVocabulary.

(** ** Exhaustive minimax, as the reference for the pruned search

    These definitions follow the words of the specification ("an exhaustive
    minimax search of the same tree"), not the code: every legal move is
    searched, with no window, no cache and no ordering. The rules of the
    game are those of the search: a move that leaves the mover in check is
    not legal, a move flagged as a draw is worth 0, a position without legal
    moves is a mate or a stalemate, and at the horizon the side to move may
    stand pat or go on capturing. *)

Section Reference.

Context {C : Collaborators}.

Definition legal (b : ChessBoard) (m : Move) : bool :=
  negb (inCheck (makeMove b m) (invertColor (sideToMove (makeMove b m)))).

(** The quiescence value, captures followed for at most [n] plies. *)
Fixpoint minimaxQuiesce (n : nat) (b : ChessBoard) : Z :=
  match n with
  | O => evaluate b
  | S n' =>
      fold_right Z.max (evaluate b)
        (map (fun m => - minimaxQuiesce n' (makeMove b m))
             (List.filter (legal b) (tacticalMoves b)))
  end.

(** The value of a move for the side that makes it, given the value [below]
    of the position it leads to for the other side. *)
Definition moveValue (below : ChessBoard -> Z) (b : ChessBoard) (m : Move)
  : Z :=
  if fst (drawFlags (makeMove b m) m) then 0 else - below (makeMove b m).

(** The value of a position without legal moves at distance [ply] from the
    root. *)
Definition terminalValue (ply : Z) (b : ChessBoard) : Z :=
  if inCheck b (sideToMove b) then - (MATE_SCORE - ply) else 0.

(** The minimax value to depth [d], quiescence to [q] plies beyond. *)
Fixpoint minimax (q d : nat) (ply : Z) (b : ChessBoard) : Z :=
  match d with
  | O => minimaxQuiesce q b
  | S d' =>
      match map (moveValue (minimax q d' (ply + 1)) b)
                (List.filter (legal b) (pseudoLegalMoves b)) with
      | [] => terminalValue ply b
      | v :: vs => fold_right Z.max v vs
      end
  end.

(** The hashes of the positions of the tree below a position. *)
Inductive Below : ChessBoard -> Z -> Prop :=
| Below_here b : Below b (hashCode b)
| Below_move b m h :
    In m (pseudoLegalMoves b) \/ In m (tacticalMoves b) ->
    Below (makeMove b m) h -> Below b h.

(** The table holds no entry for a position below [b]. *)
Definition no_entry_below (t : TT.Table) (b : ChessBoard) : Prop :=
  forall i, TT.nodeType (TT.entries t i) <> EMPTY ->
            ~ Below b (TT.key (TT.entries t i)).

(** From [t] to [t'] only entries for positions below [b] were written. *)
Definition grown_below (t t' : TT.Table) (b : ChessBoard) : Prop :=
  forall i, TT.nodeType (TT.entries t' i) <> EMPTY ->
            TT.entries t' i = TT.entries t i \/
            Below b (TT.key (TT.entries t' i)).

(** What a search with window [(alpha, beta)] owes about the value [v]: the
    side of the window the value lies on, and the value itself when it lies
    inside. *)
Definition agrees (v alpha beta r : Z) : Prop :=
  (v <= alpha -> r <= alpha) /\
  (beta <= v -> beta <= r) /\
  (alpha < v < beta -> r = v).

(** What the move loops owe: [v] is the maximum of the running alpha and of
    the values of the moves still to be searched. *)
Definition loop_agrees (v beta r : Z) : Prop :=
  (beta <= v -> beta <= r) /\ (v < beta -> r = v).

End Reference.

(** Game 4. A transposition: the two moves of the root lead to A (node 1)
    and B (node 2), whose only moves lead to X (node 3) and Y (node 4), two
    nodes for one position: the same hash and the same evaluation. *)
Definition game4 : TableGame := {|
  g_hash n := if n =? 4 then 1003 else 1000 + n;
  g_eval n := if (n =? 3) || (n =? 4) then 20 else 0;
  g_moves n := if n =? 0 then [mkMove 10 1 0 0; mkMove 11 2 0 0]
               else if n =? 1 then [mkMove 12 3 0 0]
               else if n =? 2 then [mkMove 13 4 0 0]
               else [];
  g_tactical _ := [];
  g_check _ _ := false;
  g_clock _ := 0;
  g_piece _ _ := 1;
  g_past := [];
  g_irreversible := [];
  g_mg := material;
  g_size := 1024;
  g_stop _ := false
|}.

Section ReferenceVocabulary.

Context {C : Collaborators}.

(** [rec], run as [quiesce] on the position [c] with any open window in
    [int] range and a table that holds nothing for the positions below [c],
    returns; it restores the board, writes only entries for positions below
    [c], and its result agrees with the value [v]. *)
Definition answers_quiesce (rec : Z -> Z -> Z -> Z -> M Z) (c : ChessBoard)
           (v : Z) : Prop :=
  forall alpha beta ply depth s,
    board s = c -> no_entry_below (tt s) c ->
    INT32_MIN < alpha -> alpha < beta -> beta <= INT32_MAX ->
    exists r s',
      rec alpha beta ply depth s = Some (r, s') /\
      board s' = c /\ grown_below (tt s) (tt s') c /\
      agrees v alpha beta r /\ INT32_MIN < r <= INT32_MAX.

(** The same for [rec] run as [alphaBeta] at the given depth and ply. *)
Definition answers_alphaBeta (rec : Z -> Z -> Z -> Z -> M Z) (depth ply : Z)
           (c : ChessBoard) (v : Z) : Prop :=
  forall alpha beta s,
    board s = c -> no_entry_below (tt s) c ->
    INT32_MIN < alpha -> alpha < beta -> beta <= INT32_MAX ->
    exists r s',
      rec depth alpha beta ply s = Some (r, s') /\
      board s' = c /\ grown_below (tt s) (tt s') c /\
      agrees v alpha beta r /\ INT32_MIN < r <= INT32_MAX.

End ReferenceVocabulary.

Section LoopVocabulary.

Context {C : Collaborators}.

(** The moves [R] still to be searched at the position [b]: they come from
    the generated list [L], no move occurs twice, and the table holds
    nothing for the positions below the ones they lead to. *)
Definition loop_ready (b : ChessBoard) (L : list Move) (t : TT.Table)
           (R : list ScoredMove) : Prop :=
  Forall (fun x => In (move x) L) R /\
  NoDup (map move R) /\
  (forall x, x ∈ R -> no_entry_below t (makeMove b (move x))).

End LoopVocabulary.

Section ValueVocabulary.

Context {C : Collaborators}.

(** The values, by [f], of the legal moves among the scored moves [R]. *)
Definition values (f : Move -> Z) (b : ChessBoard) (R : list ScoredMove)
  : list Z :=
  map f (List.filter (legal b) (map move R)).

End ValueVocabulary.

(** * Properties *)

(** ** Machine integers *)

Lemma int32_id z : in_int z -> int32 z = z.
Proof.
  unfold in_int, int32, INT32_MIN, INT32_MAX. intros H.
  rewrite Z.mod_small by lia. lia.
Qed.

Lemma int32_range z : in_int (int32 z).
Proof.
  unfold in_int, int32, INT32_MIN, INT32_MAX.
  pose proof (Z.mod_pos_bound (z + 2147483648) 4294967296). lia.
Qed.

Lemma add32_id a b : in_int (a + b) -> add32 a b = a + b.
Proof. apply int32_id. Qed.

Lemma sub32_id a b : in_int (a - b) -> sub32 a b = a - b.
Proof. apply int32_id. Qed.

Lemma neg32_id a : in_int (- a) -> neg32 a = - a.
Proof. apply int32_id. Qed.

Lemma mul32_id a b : in_int (a * b) -> mul32 a b = a * b.
Proof. apply int32_id. Qed.

Lemma abs32_id a : in_int (Z.abs a) -> abs32 a = Z.abs a.
Proof. apply int32_id. Qed.

(** Incrementing a counter always changes it, also when it wraps. *)
Lemma add32_1_neq a : add32 a 1 <> a.
Proof.
  unfold add32, int32. intros E.
  pose proof (Z.mod_pos_bound (a + 1 + 2147483648) 4294967296 ltac:(lia)) as B.
  assert (R : (a + 1 + 2147483648) mod 4294967296 = a + 2147483648) by lia.
  assert (0 <= a + 2147483648 < 4294967296) as B' by lia.
  destruct (Z.eq_dec (a + 2147483648) 4294967295) as [E'|N].
  - replace (a + 1 + 2147483648) with 4294967296 in R by lia.
    rewrite Z.mod_same in R by lia. lia.
  - rewrite Z.mod_small in R by lia. lia.
Qed.

Ltac int_range := unfold in_int, INT32_MIN, INT32_MAX in *; lia.

(** ** Moves *)

Lemma Move_eqb_eq a b : Move_eqb a b = true <-> a = b.
Proof.
  destruct a, b; unfold Move_eqb; simpl.
  rewrite !andb_true_iff, !Z.eqb_eq. split.
  - intros [[[-> ->] ->] ->]. reflexivity.
  - intros E. injection E as -> -> -> ->. auto.
Qed.

Lemma Move_eqb_refl a : Move_eqb a a = true.
Proof. apply Move_eqb_eq. reflexivity. Qed.

(** ** The transposition table *)

Section TableFacts.

Import TranspositionTable.

Variable SIZE : Z.

Lemma NodeType_eqb_eq a b : NodeType_eqb a b = true <-> a = b.
Proof. destruct a, b; simpl; split; intros H; congruence. Qed.

Lemma normalize_nodeType e ply : nodeType (normalize e ply) = nodeType e.
Proof. unfold normalize. destruct (_ <=? _); reflexivity. Qed.

Lemma normalize_depth e ply : depth (normalize e ply) = depth e.
Proof. unfold normalize. destruct (_ <=? _); reflexivity. Qed.

Lemma normalize_key e ply : key (normalize e ply) = key e.
Proof. unfold normalize. destruct (_ <=? _); reflexivity. Qed.

(** [setEntry] either leaves the table alone or writes the normalised entry
    into the slot of the key. *)
Lemma setEntry_cases k e ply t :
  setEntry SIZE k e ply t = t \/
  setEntry SIZE k e ply t = write (slot SIZE k) (normalize e ply) t.
Proof.
  unfold setEntry.
  repeat match goal with |- context [if ?c then _ else _] => destruct c end;
    auto.
Qed.

Lemma write_changes_writes i e t : writes (write i e t) <> writes t.
Proof. simpl. apply add32_1_neq. Qed.

Lemma write_slot i e t : entries (write i e t) i = e.
Proof. simpl. rewrite Z.eqb_refl. reflexivity. Qed.

Lemma write_other i j e t : j <> i -> entries (write i e t) j = entries t j.
Proof. simpl. intros H. destruct (Z.eqb_spec j i); congruence. Qed.

End TableFacts.

Section TableClaims.

Import TranspositionTable.

Variable SIZE : Z.

(** C3. The replacement policy of [setEntry]. Writing means that the slot
    of the key holds the incoming entry (its mate score normalised) and the
    write counter has moved; keeping means that the table is unchanged.
    - an empty slot accepts the entry;
    - an incoming EXACT entry overwrites a stored bound;
    - a stored EXACT entry is kept against an incoming bound, whatever the
      depths;
    - when both are EXACT or both are bounds, the entry is written exactly
      when its depth is at least the stored depth. *)
Theorem setEntry_replacement_policy (k : Z) (e : Entry) (ply : Z) (t : Table) :
  let old := entries t (slot SIZE k) in
  let t' := setEntry SIZE k e ply t in
  let written :=
    entries t' (slot SIZE k) = normalize e ply /\
    writes t' = add32 (writes t) 1 /\
    (forall i, i <> slot SIZE k -> entries t' i = entries t i) in
  (nodeType old = EMPTY -> written) /\
  (nodeType e = EXACT -> is_bound (nodeType old) -> written) /\
  (nodeType old = EXACT -> is_bound (nodeType e) -> t' = t) /\
  ((nodeType old = EXACT /\ nodeType e = EXACT) \/
   (is_bound (nodeType old) /\ is_bound (nodeType e)) ->
   (depth old <= depth e -> written) /\ (depth e < depth old -> t' = t)).
Proof.
  cbv zeta. unfold setEntry, is_bound.
  rewrite normalize_nodeType, normalize_depth.
  set (i := slot SIZE k). set (n := normalize e ply).
  assert (W : entries (write i n t) i = n /\
              writes (write i n t) = add32 (writes t) 1 /\
              (forall j, j <> i -> entries (write i n t) j = entries t j)).
  { split; [apply write_slot|]. split; [reflexivity|].
    intros j Hj. apply write_other, Hj. }
  split; [intros ->; exact W|].
  split; [intros -> [-> | ->]; exact W|].
  split; [intros -> [-> | ->]; reflexivity|].
  intros [[-> ->] | [[-> | ->] [-> | ->]]]; simpl;
    (split; intros Hd;
     destruct (Z.leb_spec (depth (entries t i)) (depth e));
     first [lia | exact W | reflexivity]).
Qed.

(** C2, as amended. An entry of depth at least 0 whose score has magnitude
    [MATE_SCORE - p1] is stored at ply [p1]; when [setEntry] does write it,
    a [getEntry] of the same key at ply [p2] returns the score
    [MATE_SCORE - p2] with the sign of the stored score. *)
Theorem mate_distance_round_trip (k : Z) (e : Entry) (p1 p2 : Z) (t : Table) :
  0 <= p1 -> 0 <= p2 <= INT32_MAX ->
  0 <= depth e -> depth e + p1 <= INT32_MAX ->
  Z.abs (score e) = MATE_SCORE - p1 ->
  writes (setEntry SIZE k e p1 t) <> writes t ->
  let r := fst (getEntry SIZE k p2 (setEntry SIZE k e p1 t)) in
  (0 < score e -> score r = MATE_SCORE - p2) /\
  (score e < 0 -> score r = - (MATE_SCORE - p2)) /\
  (p2 <= MATE_SCORE -> Z.abs (score r) = MATE_SCORE - p2).
Proof.
  intros Hp1 Hp2 Hd Hdp Hs Hw. cbv zeta.
  destruct (setEntry_cases SIZE k e p1 t) as [E | E]; [congruence|].
  rewrite E. unfold getEntry. cbn [fst]. rewrite write_slot.
  assert (N : score (normalize e p1) = sign_of (score e) * MATE_SCORE).
  { unfold normalize, MATE_SCORE in *.
    rewrite add32_id, sub32_id, abs32_id by int_range.
    destruct (Z.leb_spec (65536 - (depth e + p1)) (Z.abs (score e))); [|lia].
    simpl. apply mul32_id. unfold sign_of. destruct (0 <? _); int_range. }
  assert (A : abs32 (score (normalize e p1)) = MATE_SCORE).
  { rewrite N. unfold sign_of, MATE_SCORE. destruct (0 <? _); reflexivity. }
  rewrite A, Z.eqb_refl. simpl score.
  assert (S' : sign_of (score (normalize e p1)) = sign_of (score e)).
  { rewrite N. unfold sign_of at 2 3, MATE_SCORE.
    destruct (Z.ltb_spec 0 (score e)); reflexivity. }
  rewrite S'. unfold MATE_SCORE in *.
  rewrite sub32_id by int_range.
  rewrite mul32_id by (unfold sign_of; destruct (0 <? _); int_range).
  unfold sign_of. destruct (Z.ltb_spec 0 (score e)); lia.
Qed.

End TableClaims.

(** The theorem at a concrete table: a mate score stored at ply 3 and read
    at ply 7. *)
Lemma mate_distance_round_trip_witness :
  let e := TT.mkEntry 5 Move_zero 2 65533 LOWERBOUND in
  let r := fst (TT.getEntry 1024 5 7 (TT.setEntry 1024 5 e 3 TT.Table_zero)) in
  (0 < TT.score e -> TT.score r = MATE_SCORE - 7) /\
  (TT.score e < 0 -> TT.score r = - (MATE_SCORE - 7)) /\
  (7 <= MATE_SCORE -> Z.abs (TT.score r) = MATE_SCORE - 7).
Proof.
  apply (mate_distance_round_trip 1024 5
           (TT.mkEntry 5 Move_zero 2 65533 LOWERBOUND) 3 7 TT.Table_zero);
    simpl; unfold INT32_MAX, MATE_SCORE; try lia.
  vm_compute. discriminate.
Defined.

(** The first claim fails below the horizon: the quiescence search stores
    entries of negative depth, and for those the threshold of [setEntry]
    lies above a mate score at the current ply. Here a score of magnitude
    [MATE_SCORE - 2] is written at ply 2 with depth -1 and read at ply 5. *)
Lemma mate_round_trip_negative_depth :
  let e := TT.mkEntry 7 Move_zero (-1) 65534 LOWERBOUND in
  let t' := TT.setEntry 1024 7 e 2 TT.Table_zero in
  Z.abs (TT.score e) = MATE_SCORE - 2 /\
  TT.writes t' = 1 /\
  TT.score (fst (TT.getEntry 1024 7 5 t')) = 65534 /\
  Z.abs (TT.score (fst (TT.getEntry 1024 7 5 t'))) <> MATE_SCORE - 5.
Proof. vm_compute. repeat split; discriminate. Qed.

(** C10. [getEntry] hands out the entry of slot [abs(key) % TT_SIZE] as it
    is, whatever key is stored there (only a normalised mate score is
    rewritten for the ply), and counts a read each time. The comparison of
    keys and the collision counter are in [contains] alone. So a [getEntry]
    that does not follow a successful [contains] can return the entry of
    another position: keys 5 and -5 share a slot for every table size. *)
Theorem getEntry_does_not_check_key (SIZE : Z) :
  (forall k ply t,
      let stored := TT.entries t (TT.slot SIZE k) in
      let e := fst (TT.getEntry SIZE k ply t) in
      let t' := snd (TT.getEntry SIZE k ply t) in
      TT.key e = TT.key stored /\ TT.bestMove e = TT.bestMove stored /\
      TT.depth e = TT.depth stored /\ TT.nodeType e = TT.nodeType stored /\
      (abs32 (TT.score stored) <> MATE_SCORE -> e = stored) /\
      TT.reads t' = add32 (TT.reads t) 1 /\
      TT.entries t' = TT.entries t /\
      TT.collisions t' = TT.collisions t /\ TT.writes t' = TT.writes t) /\
  (forall k t,
      let stored := TT.entries t (TT.slot SIZE k) in
      let t' := snd (TT.contains SIZE k t) in
      (fst (TT.contains SIZE k t) = true <->
       TT.nodeType stored <> EMPTY /\ TT.key stored = k) /\
      (TT.nodeType stored <> EMPTY -> TT.key stored <> k ->
       TT.collisions t' = add32 (TT.collisions t) 1) /\
      TT.reads t' = TT.reads t /\ TT.entries t' = TT.entries t) /\
  (let e := TT.mkEntry 5 (mkMove 12 28 0 0) 3 40 EXACT in
   let t := TT.setEntry SIZE 5 e 0 TT.Table_zero in
   fst (TT.contains SIZE (-5) t) = false /\
   fst (TT.getEntry SIZE (-5) 0 t) = e).
Proof.
  split; [|split].
  - intros k ply t. cbv zeta. unfold TT.getEntry. cbn [fst snd].
    destruct (Z.eqb_spec (abs32 (TT.score (TT.entries t (TT.slot SIZE k))))
                         MATE_SCORE) as [E|N]; simpl;
      repeat split; try reflexivity; intros; congruence.
  - intros k t. cbv zeta. unfold TT.contains. cbn [fst snd].
    set (stored := TT.entries t (TT.slot SIZE k)).
    split; [|split; [|split]].
    + rewrite andb_true_iff, negb_true_iff, Z.eqb_eq.
      split; intros [H1 H2]; split; auto.
      * intros E. rewrite E in H1. discriminate.
      * destruct (TT.nodeType stored); simpl; congruence.
    + intros H1 H2.
      destruct (TT.nodeType stored); try congruence;
        (destruct (Z.eqb_spec (TT.key stored) k); [congruence|]);
        reflexivity.
    + destruct (_ && _); reflexivity.
    + destruct (_ && _); reflexivity.
  - cbv zeta.
    set (e := TT.mkEntry 5 (mkMove 12 28 0 0) 3 40 EXACT).
    assert (S5 : TT.slot SIZE (-5) = TT.slot SIZE 5) by reflexivity.
    assert (N : TT.normalize e 0 = e) by (vm_compute; reflexivity).
    assert (W : TT.setEntry SIZE 5 e 0 TT.Table_zero
                = TT.write (TT.slot SIZE 5) e TT.Table_zero).
    { unfold TT.setEntry. rewrite N. reflexivity. }
    rewrite W. unfold TT.contains, TT.getEntry. cbn [fst snd].
    rewrite S5, write_slot. split; reflexivity.
Qed.

(** ** The search *)

(** Reduction of the projections of the state, and of nothing else. *)
Ltac st_simpl :=
  cbn [fst snd board tt killerMoves killerMoveIndexOne history lastPV polls
       with_board with_tt with_killers with_history polled
       hit p_score p_alpha p_beta p_hashMove] in *.

Section SearchClaims.

Context {C : Collaborators}.

(** [getTransposition] never fails and leaves everything but the table
    alone. *)
Lemma getTransposition_runs hash depth ply score alpha beta hashMove s :
  exists p t,
    getTransposition hash depth ply score alpha beta hashMove s
    = Some (p, with_tt s t).
Proof.
  unfold getTransposition, tt_contains, tt_getEntry, bind, ret. cbv zeta.
  destruct (fst (TT.contains TT_SIZE hash (tt s))); [|eexists _, _; reflexivity].
  st_simpl.
  destruct (depth <=? _); [|eexists _, _; reflexivity].
  destruct (TT.nodeType _); try (eexists _, _; reflexivity);
    match goal with |- context [if ?c then _ else _] => destruct c end;
    eexists _, _; reflexivity.
Qed.

(** C4. The cache probe of [alphaBeta], for a call that is neither cancelled
    nor at depth 0. The entry of the position is usable when it is present
    and its depth is at least the requested depth. A usable EXACT entry, a
    usable UPPERBOUND entry with score at most alpha and a usable LOWERBOUND
    entry with score at least beta make [alphaBeta] return the stored score
    at once. Any other usable entry hands its best move to the move
    ordering and tightens beta (UPPERBOUND) or alpha (LOWERBOUND) to the
    stored score; an unusable entry changes nothing. *)
Theorem alphaBeta_cache_probe (fuel : nat) (depth alpha beta ply : Z)
        (s : Search) :
  stop_at (polls s) = false -> depth <> 0 ->
  let hash := hashCode (board s) in
  let probed := TT.contains TT_SIZE hash (tt s) in
  let entry := fst (TT.getEntry TT_SIZE hash ply (snd probed)) in
  let usable := fst probed && (depth <=? TT.depth entry) in
  exists p s1,
    getTransposition hash depth ply 0 alpha beta Move_zero (polled s)
    = Some (p, s1) /\
    board s1 = board s /\
    (usable = false -> p = mkProbe false 0 alpha beta Move_zero) /\
    (usable = true -> TT.nodeType entry = EXACT ->
     p = mkProbe true (TT.score entry) alpha beta Move_zero) /\
    (usable = true -> TT.nodeType entry = UPPERBOUND ->
     TT.score entry <= alpha ->
     p = mkProbe true (TT.score entry) alpha beta Move_zero) /\
    (usable = true -> TT.nodeType entry = UPPERBOUND ->
     alpha < TT.score entry ->
     p = mkProbe false 0 alpha (Z.min beta (TT.score entry))
                 (TT.bestMove entry)) /\
    (usable = true -> TT.nodeType entry = LOWERBOUND ->
     beta <= TT.score entry ->
     p = mkProbe true (TT.score entry) alpha beta Move_zero) /\
    (usable = true -> TT.nodeType entry = LOWERBOUND ->
     TT.score entry < beta ->
     p = mkProbe false 0 (Z.max alpha (TT.score entry)) beta
                 (TT.bestMove entry)) /\
    (hit p = true ->
     alphaBeta (S fuel) depth alpha beta ply s = Some (p_score p, s1)) /\
    (hit p = false ->
     alphaBeta (S fuel) depth alpha beta ply s =
     let alpha' := Z.max (p_alpha p) (add32 (- MATE_SCORE) ply) in
     let beta' := Z.min (p_beta p) (sub32 MATE_SCORE ply) in
     if beta' <=? alpha' then Some (alpha', s1)
     else
       let moves :=
         scoreMoves s1 (pseudoLegalMoves (board s1)) ply (p_hashMove p) in
       alphaBetaLoop (alphaBeta fuel) depth beta' ply (length moves) 0 moves
                     alpha' INT32_MIN Move_zero UPPERBOUND false false s1).
Proof.
  intros Hstop Hdepth. cbv zeta.
  set (hash := hashCode (board s)).
  destruct (getTransposition_runs hash depth ply 0 alpha beta Move_zero
                                  (polled s)) as (p & t & E).
  exists p, (with_tt (polled s) t).
  split; [exact E|]. split; [reflexivity|].
  assert (AB : forall f, alphaBeta (S f) depth alpha beta ply s =
     if hit p then Some (p_score p, with_tt (polled s) t)
     else
     let alpha' := Z.max (p_alpha p) (add32 (- MATE_SCORE) ply) in
     let beta' := Z.min (p_beta p) (sub32 MATE_SCORE ply) in
     if beta' <=? alpha' then Some (alpha', with_tt (polled s) t)
     else
       let moves :=
         scoreMoves (with_tt (polled s) t)
                    (pseudoLegalMoves (board s)) ply (p_hashMove p) in
       alphaBetaLoop (alphaBeta f) depth beta' ply (length moves) 0 moves
                     alpha' INT32_MIN Move_zero UPPERBOUND false false
                     (with_tt (polled s) t)).
  { intros f. cbn [alphaBeta]. unfold bind at 1. unfold read_stop at 1.
    rewrite Hstop. destruct (Z.eqb_spec depth 0) as [?|_]; [congruence|].
    unfold bind at 1. unfold get at 1. unfold bind at 1.
    change (board (polled s)) with (board s). fold hash. rewrite E.
    destruct (hit p); [reflexivity|]. cbv zeta.
    destruct (_ <=? _); reflexivity. }
  revert E.
  unfold getTransposition, bind, tt_contains. cbv zeta. st_simpl.
  assert (Fin : forall p' s',
             Some (p', s') = Some (p, with_tt (polled s) t) ->
             forall P : Prop,
               (p' = p -> s' = with_tt (polled s) t -> P) -> P).
  { intros p' s' E P HP. injection E as E1 E2. apply HP; assumption. }
  destruct (fst (TT.contains TT_SIZE hash (tt s))); cbn [andb].
  2:{ intros E; apply (Fin _ _ E); intros <- _;
      repeat split; intros; st_simpl; try reflexivity; try congruence; try lia;
      rewrite AB; reflexivity. }
  unfold tt_getEntry. cbv zeta. st_simpl.
  set (e := fst (TT.getEntry TT_SIZE hash ply
                             (snd (TT.contains TT_SIZE hash (tt s))))).
  destruct (Z.leb_spec depth (TT.depth e)) as [Hd|Hd];
    [destruct (TT.nodeType e) eqn:NT;
      [ | | destruct (Z.leb_spec beta (TT.score e))
          | destruct (Z.leb_spec (TT.score e) alpha)] | ];
    intros E; apply (Fin _ _ E); intros <- _;
    repeat split; intros; st_simpl; try reflexivity; try congruence; try lia;
    rewrite AB; reflexivity.
Qed.

(** C6. The fifty-move rule in the move loop of [alphaBeta]. [b] is the
    board as the loop reads it, after [makeMove]: when its half-move clock is
    at least 100, the origin square of the move does not hold a pawn there
    and the flag of the move is not one of the capture flags 1..5, the flags
    are [draw = true], [threefold = false], and the score of the move is 0
    whatever the recursive call [rec] would do: it is not called, and the
    state is untouched. *)
Theorem fifty_move_rule_scores_zero (rec : Z -> Z -> Z -> Z -> M Z)
        (depth alpha beta ply : Z) (b : ChessBoard) (m : Move) :
  100 <= halfMoveClock b ->
  squares_type b (start m) <> PAWN ->
  ~ (1 <= flag m <= 5) ->
  drawFlags b m = (true, false) /\
  forall s,
    childScore rec depth alpha beta ply (fst (drawFlags b m)) s = Some (0, s).
Proof.
  intros Hclock Hpawn Hcap.
  assert (F : fiftyMoveDraw b m = true).
  { unfold fiftyMoveDraw.
    destruct (Z.leb_spec 100 (halfMoveClock b)); [|lia].
    destruct (Z.eqb_spec (squares_type b (start m)) PAWN); [congruence|].
    destruct (Z.leb_spec 1 (flag m)), (Z.leb_spec (flag m) 5);
      try reflexivity. lia. }
  assert (D : drawFlags b m = (true, false)).
  { unfold drawFlags. rewrite F. reflexivity. }
  split; [exact D|]. intros s. rewrite D. reflexivity.
Qed.

(** C8. The opening of [quiesce], for a call that is not cancelled. The
    static evaluation comes first. If it is at least beta, the call returns
    beta; otherwise, with alpha raised to the evaluation when that is higher,
    if the evaluation plus the value of a queen is still below alpha, the
    call returns alpha. In both cases only the stop flag has been read: the
    table is not probed and no move is generated or made. When neither test
    fires, the call goes on as if it had been entered with the raised
    alpha. *)
Theorem quiesce_stand_pat (fuel : nat) (alpha beta ply depth : Z)
        (s : Search) :
  stop_at (polls s) = false ->
  in_int (evaluate (board s) + mg_value (QUEEN - 1)) ->
  let stand_pat := evaluate (board s) in
  let alpha' := Z.max alpha stand_pat in
  (beta <= stand_pat ->
   quiesce (S fuel) alpha beta ply depth s = Some (beta, polled s)) /\
  (stand_pat < beta -> stand_pat + mg_value (QUEEN - 1) < alpha' ->
   quiesce (S fuel) alpha beta ply depth s = Some (alpha', polled s)) /\
  (stand_pat < beta ->
   quiesce (S fuel) alpha beta ply depth s =
   quiesce (S fuel) alpha' beta ply depth s).
Proof.
  intros Hstop Hint. cbv zeta.
  set (stand_pat := evaluate (board s)).
  assert (A : (if alpha <? stand_pat then stand_pat else alpha)
              = Z.max alpha stand_pat).
  { destruct (Z.ltb_spec alpha stand_pat); lia. }
  assert (A' : (if Z.max alpha stand_pat <? stand_pat then stand_pat
                else Z.max alpha stand_pat) = Z.max alpha stand_pat).
  { destruct (Z.ltb_spec (Z.max alpha stand_pat) stand_pat); lia. }
  assert (Q : forall a, quiesce (S fuel) a beta ply depth s =
     if beta <=? stand_pat then Some (beta, polled s)
     else
       let a' := if a <? stand_pat then stand_pat else a in
       if add32 stand_pat (mg_value (QUEEN - 1)) <? a'
       then Some (a', polled s)
       else
         bind (getTransposition (hashCode (board s)) depth ply 0 a' beta
                                Move_zero)
           (fun p : Probe =>
              if hit p then ret (p_score p)
              else
                bind get (fun s0 : Search =>
                  let moves := scoreTacticalMoves s0 (tacticalMoves (board s0))
                                                  (p_hashMove p) in
                  quiesceLoop (quiesce fuel) (p_beta p) ply depth
                              (length moves) 0 moves (p_alpha p) INT32_MIN
                              Move_zero UPPERBOUND)) (polled s)).
  { intros a. cbn [quiesce]. unfold bind at 1. unfold read_stop at 1.
    rewrite Hstop. unfold bind at 1. unfold get at 1. st_simpl.
    fold stand_pat. destruct (beta <=? stand_pat); [reflexivity|].
    cbv zeta.
    match goal with |- context [if ?c then _ else _] => destruct c end;
      reflexivity. }
  rewrite !Q. cbv zeta. rewrite A, A'.
  rewrite add32_id by exact Hint.
  split; [|split].
  - intros H. destruct (Z.leb_spec beta stand_pat); [reflexivity|lia].
  - intros H1 H2. destruct (Z.leb_spec beta stand_pat); [lia|].
    destruct (Z.ltb_spec (stand_pat + mg_value (QUEEN - 1))
                         (Z.max alpha stand_pat)); [reflexivity|lia].
  - intros H. reflexivity.
Qed.

Lemma shl32_16 x : 0 <= x < 16384 -> shl32 x 16 = x * 65536.
Proof.
  intros H. unfold shl32. rewrite Z.shiftl_mul_pow2 by lia.
  change (2 ^ 16) with 65536. apply int32_id. int_range.
Qed.

Lemma isQuietFlag_true (m : Move) :
  isQuietFlag m = true <-> flag m = 0 \/ 7 <= flag m.
Proof.
  unfold isQuietFlag. rewrite orb_true_iff, Z.eqb_eq, Z.leb_le. tauto.
Qed.

(** C7, as amended. The priorities that [scoreMoves] assigns to the moves
    that do not take the principal-variation branch, for material values in
    [0, 16384):
    - the cache hint move: 2^30;
    - otherwise a promotion: the value of the promoted piece minus the value
      of a pawn, which is below 16384;
    - otherwise a quiet move (flag 0 or at least 7): 16384 when it is one of
      the two killer moves of the ply, else its history score;
    - otherwise a move with flag 6: 65536;
    - otherwise a capture: with victim and aggressor values [v] and [a],
      [max (v - a) 1 * 65536] when [a <= v], which lies in [65536, 2^30),
      and the negative [v - a], unscaled, when [v < a]. *)
Theorem scoreMoves_priorities (s : Search) (moves : list Move) (ply : Z)
        (hashMove : Move) (sm : ScoredMove) :
  (forall i, 0 <= mg_value i < 16384) ->
  In sm (scoreMoves s moves ply hashMove) ->
  pvMatch (lastPV s) ply (move sm) = false ->
  let m := move sm in
  let quiet := flag m = 0 \/ 7 <= flag m in
  let v := mg_value (flag m - 1) in
  let a := mg_value (squares_type (board s) (start m) - 1) in
  In m moves /\
  (m = hashMove -> score sm = 2 ^ 30) /\
  (m <> hashMove -> promotionType m <> 0 ->
   score sm = mg_value (promotionType m - 1) - mg_value 0 /\
   score sm < 16384) /\
  (m <> hashMove -> promotionType m = 0 -> quiet ->
   m = killerMoves s ply 0 \/ m = killerMoves s ply 1 ->
   score sm = 16384) /\
  (m <> hashMove -> promotionType m = 0 -> quiet ->
   m <> killerMoves s ply 0 -> m <> killerMoves s ply 1 ->
   score sm = history s (sideToMove (board s)) (start m) (end_ m)) /\
  (m <> hashMove -> promotionType m = 0 -> flag m = 6 ->
   score sm = 65536) /\
  (m <> hashMove -> promotionType m = 0 -> ~ quiet -> flag m <> 6 ->
   a <= v ->
   score sm = Z.max (v - a) 1 * 65536 /\ 65536 <= score sm < 2 ^ 30) /\
  (m <> hashMove -> promotionType m = 0 -> ~ quiet -> flag m <> 6 ->
   v < a ->
   score sm = v - a /\ score sm < 0).
Proof.
  intros Hmg Hin Hpv. cbv zeta.
  unfold scoreMoves in Hin. apply in_map_iff in Hin.
  destruct Hin as (m & <- & Hm). cbn [move score] in *.
  split; [exact Hm|].
  unfold scoreMove. rewrite Hpv.
  assert (HM : forall x, Move_eqb m x = true <-> m = x)
    by (intros; apply Move_eqb_eq).
  destruct (Move_eqb m hashMove) eqn:Eh.
  { apply HM in Eh.
    repeat split; intros; try congruence; reflexivity. }
  assert (Nh : m <> hashMove) by (intros E; apply HM in E; congruence).
  split; [intros; congruence|].
  destruct (Z.eqb_spec (promotionType m) 0) as [Ep|Np]; cbn [negb].
  2:{ pose proof (Hmg (promotionType m - 1)). pose proof (Hmg 0).
      rewrite sub32_id by int_range.
      repeat split; intros; try congruence; lia. }
  split; [intros; congruence|].
  destruct (isQuietFlag m) eqn:Eq.
  { pose proof (proj1 (isQuietFlag_true m) Eq) as Hq.
    destruct (Move_eqb m (killerMoves s ply 0)) eqn:K0;
      [apply HM in K0|];
      [|destruct (Move_eqb m (killerMoves s ply 1)) eqn:K1;
        [apply HM in K1|]]; cbn [orb];
      repeat split; intros; try reflexivity; try tauto; try lia;
      try (exfalso;
           match goal with
           | H : Move_eqb m ?x = false, E : m = ?x |- _ =>
               apply HM in E; congruence
           | H : m = ?x, N : m <> ?x |- _ => exact (N H)
           | H : _ \/ _ |- _ =>
               destruct H as [H|H]; apply HM in H; congruence
           end). }
  assert (NQ : ~ (flag m = 0 \/ 7 <= flag m)).
  { intros H. apply isQuietFlag_true in H. congruence. }
  split; [intros; tauto|]. split; [intros; tauto|].
  destruct (Z.eqb_spec (flag m) 6) as [E6|N6].
  { repeat split; intros; try reflexivity; try lia. }
  split; [intros; lia|].
  set (v := mg_value (flag m - 1)).
  set (a := mg_value (squares_type (board s) (start m) - 1)).
  pose proof (Hmg (flag m - 1)) as Hv. fold v in Hv.
  pose proof (Hmg (squares_type (board s) (start m) - 1)) as Ha. fold a in Ha.
  rewrite (sub32_id v a) by int_range.
  rewrite (add32_id 0 (v - a)) by int_range.
  change (0 + (v - a)) with (v - a).
  destruct (Z.eqb_spec (v - a) 0) as [E0|N0].
  - change (0 <? 1) with true. cbv iota.
    rewrite shl32_16 by lia. rewrite add32_id by int_range.
    split; intros; [|lia].
    replace (Z.max (v - a) 1) with 1 by lia.
    change (2 ^ 30) with 1073741824. lia.
  - destruct (Z.ltb_spec 0 (v - a)) as [Hpos|Hneg].
    + rewrite shl32_16 by lia. rewrite add32_id by int_range.
      split; intros; [|lia].
      replace (Z.max (v - a) 1) with (v - a) by lia.
      change (2 ^ 30) with 1073741824. lia.
    + rewrite add32_id by int_range.
      split; intros; lia.
Qed.

End SearchClaims.

(** The probe on the root of game 1 (hash 1000), asked for depth 1 with the
    window (-5, 5), against four stored entries:
    - an EXACT entry of depth 3 and score 42: [alphaBeta] returns 42;
    - a LOWERBOUND entry of depth 2 and score 7, at least beta: [alphaBeta]
      returns 7;
    - an UPPERBOUND entry of depth 1 and score 3, above alpha: no hit, beta
      becomes 3 and the stored move becomes the hint;
    - an EXACT entry of depth 0, below the requested depth: nothing is
      taken from it. *)
Lemma alphaBeta_cache_probe_witness :
  let hint := mkMove 11 2 0 0 in
  (exists s1,
      @alphaBeta (tableGame game1) 1 1 (-5) 5 0
                 (game1_cached (TT.mkEntry 1000 hint 3 42 EXACT))
      = Some (42, s1)) /\
  (exists s1,
      @alphaBeta (tableGame game1) 1 1 (-5) 5 0
                 (game1_cached (TT.mkEntry 1000 hint 2 7 LOWERBOUND))
      = Some (7, s1)) /\
  (exists s1,
      @getTransposition (tableGame game1) 1000 1 0 0 (-5) 5 Move_zero
        (polled (game1_cached (TT.mkEntry 1000 hint 1 3 UPPERBOUND)))
      = Some (mkProbe false 0 (-5) 3 hint, s1)) /\
  (exists s1,
      @getTransposition (tableGame game1) 1000 1 0 0 (-5) 5 Move_zero
        (polled (game1_cached (TT.mkEntry 1000 hint 0 42 EXACT)))
      = Some (mkProbe false 0 (-5) 5 Move_zero, s1)).
Proof.
  cbv zeta. split; [|split; [|split]].
  - destruct (@alphaBeta_cache_probe (tableGame game1) 0 1 (-5) 5 0
                (game1_cached (TT.mkEntry 1000 (mkMove 11 2 0 0) 3 42 EXACT))
                eq_refl ltac:(lia))
      as (p & s1 & _ & _ & _ & Hexact & _ & _ & _ & _ & Hhit & _).
    specialize (Hexact eq_refl eq_refl). subst p.
    exists s1. exact (Hhit eq_refl).
  - destruct (@alphaBeta_cache_probe (tableGame game1) 0 1 (-5) 5 0
                (game1_cached
                   (TT.mkEntry 1000 (mkMove 11 2 0 0) 2 7 LOWERBOUND))
                eq_refl ltac:(lia))
      as (p & s1 & _ & _ & _ & _ & _ & _ & Hlower & _ & Hhit & _).
    specialize (Hlower eq_refl eq_refl ltac:(vm_compute; discriminate)).
    subst p. exists s1. exact (Hhit eq_refl).
  - destruct (@alphaBeta_cache_probe (tableGame game1) 0 1 (-5) 5 0
                (game1_cached
                   (TT.mkEntry 1000 (mkMove 11 2 0 0) 1 3 UPPERBOUND))
                eq_refl ltac:(lia))
      as (p & s1 & E & _ & _ & _ & _ & Hupper & _).
    specialize (Hupper eq_refl eq_refl ltac:(vm_compute; reflexivity)).
    subst p. exists s1. exact E.
  - destruct (@alphaBeta_cache_probe (tableGame game1) 0 1 (-5) 5 0
                (game1_cached (TT.mkEntry 1000 (mkMove 11 2 0 0) 0 42 EXACT))
                eq_refl ltac:(lia))
      as (p & s1 & E & _ & Hun & _).
    specialize (Hun eq_refl). subst p. exists s1. exact E.
Defined.

(** The fifty-move rule on game 3: the quiet rook move from the root. *)
Lemma fifty_move_rule_witness :
  @drawFlags (tableGame game3) [2] game3_quiet = (true, false) /\
  forall s, @childScore (tableGame game3) (fun _ _ _ _ => out_of_fuel)
                        1 (-5) 5 0 true s = Some (0, s).
Proof.
  apply (@fifty_move_rule_scores_zero (tableGame game3)
           (fun _ _ _ _ => out_of_fuel) 1 (-5) 5 0 [2] game3_quiet).
  - vm_compute. discriminate.
  - vm_compute. discriminate.
  - intros [H _]. vm_compute in H. apply H. reflexivity.
Defined.

(** The stand-pat cutoff on the root of game 1, whose evaluation is 0. *)
Lemma quiesce_stand_pat_witness :
  @quiesce (tableGame game1) 1 (-10) (-5) 0 0 (freshSearch game1)
  = Some (-5, polled (freshSearch game1)).
Proof.
  refine (proj1 (@quiesce_stand_pat (tableGame game1) 0 (-10) (-5) 0 0
                   (freshSearch game1) eq_refl _) _).
  - vm_compute. split; discriminate.
  - vm_compute. discriminate.
Defined.

Lemma material_range (i : Z) : 0 <= material i < 16384.
Proof.
  unfold material.
  destruct (Z.to_nat i) as [|[|[|[|[|[|n]]]]]]; simpl; try lia.
  destruct n; lia.
Qed.

(** The priorities on game 3, one move for each kind: with the quiet rook
    move as the hash move, the scores of the hash move, of the promotion to
    a queen, of the move with flag 6, of a rook taking a queen and of the
    queen taking a pawn; and, without a hash move, the history score of the
    quiet move. *)
Lemma scoreMoves_priorities_witness :
  let rook_takes_queen := mkMove 1 9 5 0 in
  let moves := [game3_quiet; game3_queen_takes_pawn; game3_promotion;
                game3_flag6; rook_takes_queen] in
  let s := freshSearch game3 in
  map score (@scoreMoves (tableGame game3) s moves 0 game3_quiet)
  = [2 ^ 30; 82 - 1025; 1025 - 82; 65536; Z.max (1025 - 477) 1 * 65536] /\
  score (mkScoredMove game3_quiet 0) = 0.
Proof.
  cbv zeta.
  pose (moves := [game3_quiet; game3_queen_takes_pawn; game3_promotion;
                  game3_flag6; mkMove 1 9 5 0]).
  assert (P : forall hm sm,
             In sm (@scoreMoves (tableGame game3) (freshSearch game3)
                                moves 0 hm) ->
             _) by
    (intros hm sm Hin;
     exact (@scoreMoves_priorities (tableGame game3) (freshSearch game3)
              moves 0 hm sm material_range Hin eq_refl)).
  assert (NQ1 : ~ (1 = 0 \/ 7 <= 1)) by lia.
  assert (NQ5 : ~ (5 = 0 \/ 7 <= 5)) by lia.
  split.
  - destruct (P game3_quiet (mkScoredMove game3_quiet (2 ^ 30))
                ltac:(vm_compute;
                      repeat (first [left; reflexivity | right]))) as (_ & H1 & _).
    destruct (P game3_quiet (mkScoredMove game3_queen_takes_pawn (-943))
                ltac:(vm_compute;
                      repeat (first [left; reflexivity | right]))) as (_ & _ & _ & _ & _ & _ & _ & H2).
    destruct (P game3_quiet (mkScoredMove game3_promotion 943)
                ltac:(vm_compute;
                      repeat (first [left; reflexivity | right]))) as (_ & _ & H3 & _).
    destruct (P game3_quiet (mkScoredMove game3_flag6 65536)
                ltac:(vm_compute;
                      repeat (first [left; reflexivity | right]))) as (_ & _ & _ & _ & _ & H4 & _).
    destruct (P game3_quiet (mkScoredMove (mkMove 1 9 5 0) 35913728)
                ltac:(vm_compute;
                      repeat (first [left; reflexivity | right]))) as (_ & _ & _ & _ & _ & _ & H5 & _).
    cbn [move score] in *.
    specialize (H1 eq_refl).
    destruct (H2 ltac:(discriminate) eq_refl NQ1 ltac:(discriminate)
                 ltac:(vm_compute; reflexivity)) as [H2' _].
    destruct (H3 ltac:(discriminate) ltac:(discriminate)) as [H3' _].
    specialize (H4 ltac:(discriminate) eq_refl eq_refl).
    destruct (H5 ltac:(discriminate) eq_refl NQ5 ltac:(discriminate)
                 ltac:(vm_compute; discriminate)) as [H5' _].
    exact (f_equal2 cons H1 (f_equal2 cons H2' (f_equal2 cons H3'
             (f_equal2 cons H4 (f_equal2 cons H5' eq_refl))))).
  - destruct (P Move_zero (mkScoredMove game3_quiet 0)
                ltac:(vm_compute;
                      repeat (first [left; reflexivity | right]))) as (_ & _ & _ & _ & H & _).
    exact (H ltac:(discriminate) eq_refl (or_introl eq_refl)
             ltac:(discriminate) ltac:(discriminate)).
Defined.

(** The claimed order fails on game 3, in the second iteration (the previous
    principal variation has two moves and starts with the quiet move):
    - at ply 0 the move of the principal variation is not recognised and is
      scored by its history (0), and at ply 1, where it is recognised,
      [1 << 31] is the lowest [int];
    - the queen taking a pawn keeps the negative score -943, below the quiet
      move;
    - the promotion to a queen scores 943, below the move with flag 6;
    so the first move selected is the one with flag 6. *)
Lemma scoreMoves_order_fails :
  let moves := [game3_quiet; game3_queen_takes_pawn;
                game3_promotion; game3_flag6] in
  let scored := @scoreMoves (tableGame game3) game3_second_iteration
                            moves 0 Move_zero in
  map score scored = [0; -943; 943; 65536] /\
  @scoreMove (tableGame game3) game3_second_iteration 1 Move_zero
             (mkMove 9 9 0 0) = INT32_MIN /\
  fst (selectMove scored 0) = game3_flag6.
Proof. vm_compute. auto. Qed.

(** C5 on game 2: the only move repeats a position and is scored 0 as a
    draw by repetition; it raises alpha, and the entry that [alphaBeta]
    then stores for the root is an EXACT entry with that move and score 0. *)
Theorem repetition_draw_is_stored :
  @drawFlags (tableGame game2) [1] (mkMove 1 1 0 0) = (true, true) /\
  exists s',
    @threadedSearch (tableGame game2) 2 1 (freshSearch game2) = Some (0, s') /\
    TT.entries (tt s') (TT.slot 1024 50)
    = TT.mkEntry 50 (mkMove 1 1 0 0) 1 0 EXACT /\
    TT.writes (tt s') = 1.
Proof.
  split; [vm_compute; reflexivity|].
  eexists. split; [vm_compute; reflexivity|].
  split; vm_compute; reflexivity.
Qed.

(** ** Selection of the next move *)

Lemma scanMax_spec (rest : list ScoredMove) :
  forall (i k : nat) (sel : ScoredMove) k' sel',
    scanMax rest i k sel = (k', sel') ->
    score sel <= score sel' /\
    Forall (fun x => score x <= score sel') rest /\
    ((k' = k /\ sel' = sel) \/
     (exists j, k' = (i + j)%nat /\ rest !! j = Some sel')).
Proof.
  induction rest as [|x rest IH]; intros i k sel k' sel' E; simpl in E.
  - injection E as <- <-. split; [lia|]. split; [constructor|]. auto.
  - destruct (Z.ltb_spec (score sel) (score x)) as [Hlt|Hge].
    + apply IH in E. destruct E as (H1 & H2 & H3).
      split; [lia|]. split; [constructor; [lia|exact H2]|].
      right. destruct H3 as [[-> ->] | (j & -> & Hj)].
      * exists O. split; [lia|reflexivity].
      * exists (S j). split; [lia|exact Hj].
    + apply IH in E. destruct E as (H1 & H2 & H3).
      split; [exact H1|]. split; [constructor; [lia|exact H2]|].
      destruct H3 as [[-> ->] | (j & -> & Hj)]; [left; auto|].
      right. exists (S j). split; [lia|exact Hj].
Qed.

(** Exchanging the head of a list with one of its elements permutes it. *)
Lemma swap_head_Permutation {A : Type} (a b : A) (l : list A) (j : nat) :
  l !! j = Some b -> a :: l ≡ₚ b :: <[j := a]> l.
Proof.
  intros H.
  rewrite <- (take_drop_middle l j b H) at 1.
  rewrite insert_take_drop by (eapply lookup_lt_Some; eauto).
  rewrite <- !Permutation_middle.
  apply perm_swap.
Qed.

(** [selectMove] exchanges [moves[index]] with a best-scored element of
    [moves[index..]] and returns that element. *)
Lemma selectMove_spec (moves : list ScoredMove) (i : nat) m moves' :
  (i < length moves)%nat ->
  selectMove moves i = (m, moves') ->
  exists sm,
    m = move sm /\
    length moves' = length moves /\
    take i moves' = take i moves /\
    drop i moves' = sm :: drop (S i) moves' /\
    drop i moves ≡ₚ sm :: drop (S i) moves' /\
    Forall (fun x => score x <= score sm) (drop i moves).
Proof.
  intros Hi E. unfold selectMove in E.
  destruct (lookup_lt_is_Some_2 moves i Hi) as [first Hf].
  rewrite (nth_lookup_Some _ _ _ _ Hf) in E.
  destruct (scanMax (drop (S i) moves) (S i) i first) as [k sel] eqn:Es.
  injection E as <- <-.
  apply scanMax_spec in Es. destruct Es as (H1 & H2 & H3).
  exists sel. split; [reflexivity|].
  assert (D : drop i moves = first :: drop (S i) moves).
  { apply drop_S. exact Hf. }
  split; [rewrite !length_insert; reflexivity|].
  destruct H3 as [[-> ->] | (j & -> & Hj)].
  - rewrite list_insert_insert_eq, (list_insert_id _ _ _ Hf).
    split; [reflexivity|]. split; [exact D|]. split; [rewrite D; reflexivity|].
    rewrite D. constructor; [lia|exact H2].
  - assert (Hk : moves !! (S i + j)%nat = Some sel)
      by (rewrite <- lookup_drop; exact Hj).
    assert (L : (i < length (<[(S i + j)%nat := first]> moves))%nat)
      by (rewrite length_insert; exact Hi).
    split.
    { rewrite take_insert_ge by lia. rewrite take_insert_ge by lia.
      reflexivity. }
    assert (D' : drop i (<[i := sel]> (<[(S i + j)%nat := first]> moves))
                 = sel :: <[j := first]> (drop (S i) moves)).
    { rewrite drop_insert_ge by lia. rewrite drop_insert_ge by lia.
      rewrite D. replace (i - i)%nat with O by lia.
      replace (S i + j - i)%nat with (S j) by lia. reflexivity. }
    assert (T : drop (S i) (<[i := sel]> (<[(S i + j)%nat := first]> moves))
                = <[j := first]> (drop (S i) moves)).
    { rewrite drop_insert_lt by lia. rewrite drop_insert_ge by lia.
      replace (S i + j - S i)%nat with j by lia. reflexivity. }
    rewrite T. split; [exact D'|]. split.
    + rewrite D. apply swap_head_Permutation. exact Hj.
    + rewrite D. constructor; [lia|exact H2].
Qed.

(** ** Further properties of the transposition table *)

Section TableExtras.

Import TranspositionTable.

Variable SIZE : Z.

(** A write through [setEntry] reaches the slot of its key and nothing else:
    the other slots, the read counter and the collision counter are kept,
    the write counter moves by at most one step, and the slot of the key
    holds either what it held or the incoming entry (its mate score
    normalised). *)
Theorem setEntry_touches_one_slot (k : Z) (e : Entry) (ply : Z) (t : Table) :
  let t' := setEntry SIZE k e ply t in
  (forall i, i <> slot SIZE k -> entries t' i = entries t i) /\
  reads t' = reads t /\
  collisions t' = collisions t /\
  ((t' = t) \/
   (writes t' = add32 (writes t) 1 /\
    entries t' (slot SIZE k) = normalize e ply)).
Proof.
  cbv zeta.
  destruct (setEntry_cases SIZE k e ply t) as [E | E]; rewrite E.
  - repeat split; auto.
  - split; [intros i Hi; apply write_other, Hi|].
    split; [reflexivity|]. split; [reflexivity|].
    right. split; [reflexivity|apply write_slot].
Qed.

(** Insert then look up: when [setEntry] has written a non-empty entry whose
    key field is the key it is filed under, [contains] answers [true] for
    that key without counting a collision, and [getEntry] returns the move,
    the depth and the bound kind that were stored, at every ply. *)
Theorem stored_entry_is_found (k : Z) (e : Entry) (ply ply' : Z) (t : Table) :
  key e = k -> nodeType e <> EMPTY ->
  writes (setEntry SIZE k e ply t) <> writes t ->
  let t' := setEntry SIZE k e ply t in
  let r := fst (getEntry SIZE k ply' t') in
  fst (contains SIZE k t') = true /\
  collisions (snd (contains SIZE k t')) = collisions t /\
  key r = k /\ bestMove r = bestMove e /\
  depth r = depth e /\ nodeType r = nodeType e.
Proof.
  intros Hk Hn Hw. cbv zeta.
  destruct (setEntry_cases SIZE k e ply t) as [E | E]; [congruence|].
  rewrite E. unfold contains, getEntry. cbn [fst snd].
  rewrite write_slot, normalize_nodeType, normalize_key, Hk, Z.eqb_refl.
  assert (X : NodeType_eqb (nodeType e) EMPTY = false)
    by (destruct (nodeType e); simpl; congruence).
  rewrite X. cbn [negb andb]. split; [reflexivity|]. split; [reflexivity|].
  destruct (_ =? MATE_SCORE); cbn [key bestMove depth nodeType with_score];
    rewrite ?normalize_key, ?normalize_depth, ?normalize_nodeType;
    repeat split; auto; unfold normalize; destruct (_ <=? _); reflexivity.
Qed.

(** Scores below the mate range survive the table: an entry whose score is
    smaller in magnitude than [MATE_SCORE - (depth + ply)], once written, is
    read back with exactly that score at every ply. *)
Theorem plain_score_round_trip (k : Z) (e : Entry) (p1 p2 : Z) (t : Table) :
  0 <= depth e + p1 <= INT32_MAX ->
  Z.abs (score e) < MATE_SCORE - (depth e + p1) ->
  writes (setEntry SIZE k e p1 t) <> writes t ->
  fst (getEntry SIZE k p2 (setEntry SIZE k e p1 t)) = e.
Proof.
  intros Hd Hs Hw.
  destruct (setEntry_cases SIZE k e p1 t) as [E | E]; [congruence|].
  rewrite E. unfold getEntry. cbn [fst]. rewrite write_slot.
  assert (N : normalize e p1 = e).
  { unfold normalize, MATE_SCORE in *.
    rewrite add32_id, sub32_id, abs32_id by int_range.
    destruct (Z.leb_spec (65536 - (depth e + p1)) (Z.abs (score e)));
      [lia|reflexivity]. }
  rewrite N. unfold MATE_SCORE in *. rewrite abs32_id by int_range.
  destruct (Z.eqb_spec (Z.abs (score e)) 65536); [lia|reflexivity].
Qed.

(** One write never downgrades an EXACT slot. *)
Lemma setEntry_keeps_exact (k : Z) (e : Entry) (ply : Z) (t : Table) (i : Z) :
  nodeType (entries t i) = EXACT ->
  nodeType (entries (setEntry SIZE k e ply t) i) = EXACT /\
  depth (entries t i) <= depth (entries (setEntry SIZE k e ply t) i).
Proof.
  intros Hx.
  destruct (Z.eq_dec i (slot SIZE k)) as [->|Hi].
  2:{ destruct (setEntry_cases SIZE k e ply t) as [E | E]; rewrite E.
      - split; [exact Hx|lia].
      - rewrite write_other by exact Hi. split; [exact Hx|lia]. }
  unfold setEntry. rewrite Hx, normalize_nodeType, normalize_depth.
  cbn [NodeType_eqb negb andb orb].
  destruct (NodeType_eqb (nodeType e) EXACT) eqn:En.
  - apply NodeType_eqb_eq in En.
    destruct (Z.leb_spec (depth (entries t (slot SIZE k))) (depth e)).
    + rewrite write_slot, normalize_nodeType, normalize_depth. split; auto.
    + split; [exact Hx|lia].
  - split; [exact Hx|lia].
Qed.

(** The replacement policy as an invariant of the table: through any
    sequence of writes (any keys, entries and plies), a slot that holds an
    EXACT entry goes on holding an EXACT entry, and its depth never
    decreases. *)
Theorem exact_slots_never_degrade (ws : list (Z * Entry * Z)) (t : Table)
        (i : Z) :
  let t' := fold_left (fun t w => setEntry SIZE (fst (fst w)) (snd (fst w))
                                           (snd w) t) ws t in
  nodeType (entries t i) = EXACT ->
  nodeType (entries t' i) = EXACT /\
  depth (entries t i) <= depth (entries t' i).
Proof.
  cbv zeta. revert t.
  induction ws as [|[[k e] ply] ws IH]; intros t Hx; simpl.
  - split; [exact Hx|lia].
  - destruct (setEntry_keeps_exact k e ply t i Hx) as [H1 H2].
    destruct (IH _ H1) as [H3 H4]. split; [exact H3|lia].
Qed.

End TableExtras.

Lemma stored_entry_is_found_witness :
  let e := TT.mkEntry 9 (mkMove 12 28 0 0) 3 40 EXACT in
  fst (TT.contains 1024 9 (TT.setEntry 1024 9 e 1 TT.Table_zero)) = true.
Proof.
  refine (proj1 (stored_entry_is_found 1024 9
            (TT.mkEntry 9 (mkMove 12 28 0 0) 3 40 EXACT) 1 4 TT.Table_zero
            eq_refl _ _)).
  - discriminate.
  - vm_compute. discriminate.
Defined.

Lemma plain_score_round_trip_witness :
  let e := TT.mkEntry 9 (mkMove 12 28 0 0) 3 (-250) UPPERBOUND in
  fst (TT.getEntry 1024 9 6 (TT.setEntry 1024 9 e 2 TT.Table_zero)) = e.
Proof.
  apply (plain_score_round_trip 1024 9
           (TT.mkEntry 9 (mkMove 12 28 0 0) 3 (-250) UPPERBOUND) 2 6
           TT.Table_zero).
  - vm_compute. split; discriminate.
  - vm_compute. reflexivity.
  - vm_compute. discriminate.
Defined.

Lemma exact_slots_never_degrade_witness :
  let t := TT.setEntry 1024 9 (TT.mkEntry 9 Move_zero 5 10 EXACT) 0
                       TT.Table_zero in
  let ws := [(9, TT.mkEntry 9 Move_zero 8 (-3) LOWERBOUND, 1);
             (1033, TT.mkEntry 1033 Move_zero 2 7 EXACT, 1)] in
  let t' := fold_left (fun t w => TT.setEntry 1024 (fst (fst w)) (snd (fst w))
                                              (snd w) t) ws t in
  TT.nodeType (TT.entries t' 9) = EXACT /\
  TT.depth (TT.entries t 9) <= TT.depth (TT.entries t' 9).
Proof.
  apply (exact_slots_never_degrade 1024). reflexivity.
Defined.

(** ** The loops of the search, one iteration at a time *)

Section SearchSteps.

Context {C : Collaborators}.

Lemma storeKillerMove_runs (m : Move) (ply : Z) (s : Search) :
  exists k one, storeKillerMove m ply s = Some ((), with_killers s k one).
Proof.
  unfold storeKillerMove, bind, get, ret, set_killers.
  assert (R : s = with_killers s (killerMoves s) (killerMoveIndexOne s))
    by (destruct s; reflexivity).
  repeat match goal with
         | |- context [if ?c then _ else _] => destruct c
         end;
    try (eexists _, _; reflexivity);
    exists (killerMoves s), (killerMoveIndexOne s); congruence.
Qed.

Lemma bumpHistory_runs (m : Move) (depth : Z) (s : Search) :
  exists h, bumpHistory m depth s = Some ((), with_history s h).
Proof. unfold bumpHistory, bind, get, set_history. eexists. reflexivity. Qed.

(** The cutoff block returns the score; of the state it changes the killer
    moves, the history and, unless the move repeated a position, the slot
    of the table for the node. *)
Lemma betaCutoff_runs (m : Move) (depth ply sc : Z) (threefold : bool)
      (s : Search) :
  exists s',
    betaCutoff m depth ply sc threefold s = Some (sc, s') /\
    board s' = board s /\ polls s' = polls s /\ lastPV s' = lastPV s /\
    tt s' = if threefold then tt s
            else TT.setEntry TT_SIZE (hashCode (board s))
                   (TT.mkEntry (hashCode (board s)) m depth sc LOWERBOUND)
                   ply (tt s).
Proof.
  unfold betaCutoff.
  assert (K : exists s1,
             (if isQuietFlag m
              then bind (storeKillerMove m ply) (fun _ => bumpHistory m depth)
              else ret ()) s = Some ((), s1) /\
             board s1 = board s /\ polls s1 = polls s /\
             lastPV s1 = lastPV s /\ tt s1 = tt s).
  { destruct (isQuietFlag m).
    - destruct (storeKillerMove_runs m ply s) as (k & one & E1).
      destruct (bumpHistory_runs m depth (with_killers s k one)) as (h & E2).
      eexists. unfold bind at 1. rewrite E1, E2.
      split; [reflexivity|]. repeat split.
    - exists s. repeat split. }
  destruct K as (s1 & E1 & Hb & Hp & Hl & Ht).
  unfold bind at 1. rewrite E1.
  destruct threefold; cbn [negb].
  - exists s1. unfold bind, ret. repeat split; assumption.
  - eexists. unfold bind, get, tt_setEntry, ret. split; [reflexivity|].
    st_simpl. rewrite Hb, Ht. repeat split; assumption.
Qed.

Lemma childScore_draw rec depth alpha beta ply s :
  childScore rec depth alpha beta ply true s = Some (0, s).
Proof. reflexivity. Qed.

Lemma childScore_rec rec depth alpha beta ply s :
  childScore rec depth alpha beta ply false s =
  match rec (sub32 depth 1) (neg32 beta) (neg32 alpha) (add32 ply 1) s with
  | Some (r, s') => Some (neg32 r, s')
  | None => None
  end.
Proof.
  unfold childScore, bind, ret.
  destruct (rec _ _ _ _ s) as [[r s']|]; reflexivity.
Qed.

Lemma quiesceLoop_end rec beta ply depth i moves alpha bestScore bestMove
      nodeType s :
  quiesceLoop rec beta ply depth O i moves alpha bestScore bestMove nodeType s
  = Some (alpha,
          with_tt s (TT.setEntry TT_SIZE (hashCode (board s))
                       (TT.mkEntry (hashCode (board s)) bestMove depth
                                   bestScore nodeType) ply (tt s))).
Proof. reflexivity. Qed.

Lemma quiesceLoop_step rec beta ply depth n i moves alpha bestScore bestMove
      nodeType s m moves' :
  selectMove moves i = (m, moves') ->
  quiesceLoop rec beta ply depth (S n) i moves alpha bestScore bestMove
              nodeType s =
  let b' := makeMove (board s) m in
  if inCheck b' (invertColor (sideToMove b')) then
    quiesceLoop rec beta ply depth n (S i) moves' alpha bestScore bestMove
                nodeType (with_board s (unMakeMove b'))
  else
    match rec (neg32 beta) (neg32 alpha) (add32 ply 1) (sub32 depth 1)
              (with_board s b') with
    | None => None
    | Some (r, s1) =>
        let sc := neg32 r in
        let s2 := polled (with_board s1 (unMakeMove (board s1))) in
        if stop_at (polls s1) then Some (0, s2)
        else if beta <=? sc then
          Some (sc, with_tt s2 (TT.setEntry TT_SIZE (hashCode (board s2))
                                  (TT.mkEntry (hashCode (board s2)) m depth sc
                                              LOWERBOUND) ply (tt s2)))
        else if alpha <? sc then
          quiesceLoop rec beta ply depth n (S i) moves' sc sc m EXACT s2
        else if bestScore <? sc then
          quiesceLoop rec beta ply depth n (S i) moves' alpha sc m nodeType s2
        else
          quiesceLoop rec beta ply depth n (S i) moves' alpha bestScore
                      bestMove nodeType s2
    end.
Proof.
  intros E. cbn [quiesceLoop]. rewrite E. cbv zeta.
  unfold bind at 1. unfold board_makeMove at 1.
  unfold bind at 1. unfold get at 1. st_simpl.
  destruct (inCheck _ _); [reflexivity|].
  unfold bind at 1.
  destruct (rec _ _ _ _ _) as [[r s1]|]; [|reflexivity].
  unfold bind at 1. unfold board_unMakeMove at 1.
  unfold bind at 1. unfold read_stop at 1. st_simpl.
  destruct (stop_at (polls s1)); [reflexivity|].
  destruct (beta <=? neg32 r); [reflexivity|].
  destruct (alpha <? neg32 r); [reflexivity|].
  destruct (bestScore <? neg32 r); reflexivity.
Qed.

Lemma alphaBetaLoop_end rec depth beta ply i moves alpha bestScore bestMove
      nodeType noStore hasLegalMoves s :
  alphaBetaLoop rec depth beta ply O i moves alpha bestScore bestMove nodeType
                noStore hasLegalMoves s =
  if hasLegalMoves then
    Some (alpha,
          if noStore then s
          else with_tt s (TT.setEntry TT_SIZE (hashCode (board s))
                            (TT.mkEntry (hashCode (board s)) bestMove depth
                                        bestScore nodeType) ply (tt s)))
  else if inCheck (board s) (sideToMove (board s))
       then Some (neg32 (sub32 MATE_SCORE ply), s)
       else Some (0, s).
Proof.
  cbn [alphaBetaLoop]. unfold bind at 1. unfold get at 1.
  destruct hasLegalMoves; cbn [negb].
  - destruct noStore; reflexivity.
  - destruct (inCheck _ _); reflexivity.
Qed.

Lemma alphaBetaLoop_step rec depth beta ply n i moves alpha bestScore bestMove
      nodeType noStore hasLegalMoves s m moves' :
  selectMove moves i = (m, moves') ->
  alphaBetaLoop rec depth beta ply (S n) i moves alpha bestScore bestMove
                nodeType noStore hasLegalMoves s =
  let b' := makeMove (board s) m in
  if inCheck b' (invertColor (sideToMove b')) then
    alphaBetaLoop rec depth beta ply n (S i) moves' alpha bestScore bestMove
                  nodeType noStore hasLegalMoves
                  (with_board s (unMakeMove b'))
  else
    match childScore rec depth alpha beta ply (fst (drawFlags b' m))
                     (with_board s b') with
    | None => None
    | Some (sc, s1) =>
        let s2 := polled (with_board s1 (unMakeMove (board s1))) in
        if stop_at (polls s1) then Some (0, s2)
        else if beta <=? sc then
          betaCutoff m depth ply sc (snd (drawFlags b' m)) s2
        else if alpha <? sc then
          alphaBetaLoop rec depth beta ply n (S i) moves' sc sc m EXACT
                        noStore true s2
        else if bestScore <? sc then
          alphaBetaLoop rec depth beta ply n (S i) moves' alpha sc m nodeType
                        (snd (drawFlags b' m)) true s2
        else
          alphaBetaLoop rec depth beta ply n (S i) moves' alpha bestScore
                        bestMove nodeType noStore true s2
    end.
Proof.
  intros E. cbn [alphaBetaLoop]. rewrite E. cbv zeta.
  unfold bind at 1. unfold board_makeMove at 1.
  unfold bind at 1. unfold get at 1. st_simpl.
  destruct (inCheck _ _); [reflexivity|].
  destruct (drawFlags (makeMove (board s) m) m) as [draw threefold].
  cbn [fst snd].
  unfold bind at 1.
  destruct (childScore _ _ _ _ _ _ _) as [[sc s1]|]; [|reflexivity].
  unfold bind at 1. unfold board_unMakeMove at 1.
  unfold bind at 1. unfold read_stop at 1. st_simpl.
  destruct (stop_at (polls s1)); [reflexivity|].
  destruct (beta <=? sc); [reflexivity|].
  destruct (alpha <? sc); [reflexivity|].
  destruct (bestScore <? sc); reflexivity.
Qed.

(** [quiesce] and [alphaBeta] after the reads that open them. *)
Lemma quiesce_unfold fuel alpha beta ply depth s :
  quiesce (S fuel) alpha beta ply depth s =
  if stop_at (polls s) then Some (0, polled s)
  else
    let stand_pat := evaluate (board s) in
    if beta <=? stand_pat then Some (beta, polled s)
    else
      let alpha := if alpha <? stand_pat then stand_pat else alpha in
      if add32 stand_pat (mg_value (QUEEN - 1)) <? alpha
      then Some (alpha, polled s)
      else
        match getTransposition (hashCode (board s)) depth ply 0 alpha beta
                               Move_zero (polled s) with
        | None => None
        | Some (p, s1) =>
            if hit p then Some (p_score p, s1)
            else
              let moves := scoreTacticalMoves s1 (tacticalMoves (board s1))
                                              (p_hashMove p) in
              quiesceLoop (quiesce fuel) (p_beta p) ply depth (length moves)
                          0 moves (p_alpha p) INT32_MIN Move_zero UPPERBOUND
                          s1
        end.
Proof.
  cbn [quiesce]. unfold bind at 1. unfold read_stop at 1.
  destruct (stop_at (polls s)); [reflexivity|].
  unfold bind at 1. unfold get at 1. st_simpl.
  destruct (beta <=? _); [reflexivity|]. cbv zeta.
  match goal with |- context [if ?c then _ else _] => destruct c end;
    [reflexivity|].
  unfold bind at 1.
  destruct (getTransposition _ _ _ _ _ _ _ _) as [[p s1]|]; [|reflexivity].
  destruct (hit p); reflexivity.
Qed.

Lemma alphaBeta_unfold fuel depth alpha beta ply s :
  alphaBeta (S fuel) depth alpha beta ply s =
  if stop_at (polls s) then Some (0, polled s)
  else if depth =? 0 then quiesce fuel alpha beta ply 0 (polled s)
  else
    match getTransposition (hashCode (board s)) depth ply 0 alpha beta
                           Move_zero (polled s) with
    | None => None
    | Some (p, s1) =>
        if hit p then Some (p_score p, s1)
        else
          let alpha := Z.max (p_alpha p) (add32 (- MATE_SCORE) ply) in
          let beta := Z.min (p_beta p) (sub32 MATE_SCORE ply) in
          if beta <=? alpha then Some (alpha, s1)
          else
            let moves := scoreMoves s1 (pseudoLegalMoves (board s1)) ply
                                    (p_hashMove p) in
            alphaBetaLoop (alphaBeta fuel) depth beta ply (length moves) 0
                          moves alpha INT32_MIN Move_zero UPPERBOUND
                          false false s1
    end.
Proof.
  cbn [alphaBeta]. unfold bind at 1. unfold read_stop at 1.
  destruct (stop_at (polls s)); [reflexivity|].
  destruct (depth =? 0); [reflexivity|].
  unfold bind at 1. unfold get at 1. st_simpl.
  unfold bind at 1.
  destruct (getTransposition _ _ _ _ _ _ _ _) as [[p s1]|]; [|reflexivity].
  destruct (hit p); [reflexivity|]. cbv zeta.
  destruct (_ <=? _); reflexivity.
Qed.

End SearchSteps.

(** ** The board discipline: every [makeMove] is undone *)

Section BoardDiscipline.

Context {C : Collaborators}.

Hypothesis lifo : forall b m, unMakeMove (makeMove b m) = b.

Lemma quiesceLoop_restores rec (P : Z -> Z -> Z -> Z -> ChessBoard -> Prop)
      beta ply depth b0 :
  returns_restoring rec P ->
  forall n i moves alpha bestScore bestMove nodeType s,
    (i + n = length moves)%nat ->
    board s = b0 ->
    Forall (fun sm => forall a b c d, P a b c d (makeMove b0 (move sm)))
           (drop i moves) ->
    exists r s',
      quiesceLoop rec beta ply depth n i moves alpha bestScore bestMove
                  nodeType s = Some (r, s') /\
      board s' = b0.
Proof.
  intros Hrec. induction n as [|n IH];
    intros i moves alpha bestScore bestMove nodeType s Hlen Hb HP.
  - rewrite quiesceLoop_end. eexists _, _. split; [reflexivity|exact Hb].
  - destruct (selectMove moves i) as [m moves'] eqn:E.
    destruct (selectMove_spec moves i m moves' ltac:(lia) E)
      as (sm & -> & Hl & _ & _ & Hperm & _).
    rewrite (quiesceLoop_step _ _ _ _ _ _ _ _ _ _ _ _ _ _ E). cbv zeta.
    rewrite Hb.
    pose proof (Permutation_Forall Hperm HP) as HP'.
    apply Forall_cons in HP'. destruct HP' as [Hsm HP'].
    destruct (inCheck _ _).
    { apply IH; [lia|st_simpl; apply lifo|exact HP']. }
    destruct (Hrec (neg32 beta) (neg32 alpha) (add32 ply 1) (sub32 depth 1)
                   (with_board s (makeMove b0 (move sm))) (Hsm _ _ _ _))
      as (r & s1 & -> & Hb1).
    st_simpl. rewrite Hb1, lifo.
    assert (B2 : board (polled (with_board s1 b0)) = b0) by reflexivity.
    destruct (stop_at (polls s1));
      [eexists _, _; split; [reflexivity|exact B2]|].
    destruct (beta <=? neg32 r);
      [eexists _, _; split; [reflexivity|exact B2]|].
    destruct (alpha <? neg32 r); [apply IH; [lia|exact B2|exact HP']|].
    destruct (bestScore <? neg32 r); apply IH; try lia; assumption.
Qed.

Lemma alphaBetaLoop_restores rec (P : Z -> Z -> Z -> Z -> ChessBoard -> Prop)
      depth beta ply b0 :
  returns_restoring rec P ->
  forall n i moves alpha bestScore bestMove nodeType noStore hasLegalMoves s,
    (i + n = length moves)%nat ->
    board s = b0 ->
    Forall (fun sm => forall a b c, P (sub32 depth 1) a b c
                                      (makeMove b0 (move sm)))
           (drop i moves) ->
    exists r s',
      alphaBetaLoop rec depth beta ply n i moves alpha bestScore bestMove
                    nodeType noStore hasLegalMoves s = Some (r, s') /\
      board s' = b0.
Proof.
  intros Hrec. induction n as [|n IH];
    intros i moves alpha bestScore bestMove nodeType noStore hasLegalMoves s
           Hlen Hb HP.
  - rewrite alphaBetaLoop_end.
    destruct hasLegalMoves;
      [destruct noStore|destruct (inCheck _ _)];
      eexists _, _; (split; [reflexivity|exact Hb]).
  - destruct (selectMove moves i) as [m moves'] eqn:E.
    destruct (selectMove_spec moves i m moves' ltac:(lia) E)
      as (sm & -> & Hl & _ & _ & Hperm & _).
    rewrite (alphaBetaLoop_step _ _ _ _ _ _ _ _ _ _ _ _ _ _ _ _ E). cbv zeta.
    rewrite Hb.
    pose proof (Permutation_Forall Hperm HP) as HP'.
    apply Forall_cons in HP'. destruct HP' as [Hsm HP'].
    destruct (inCheck _ _).
    { apply IH; [lia|st_simpl; apply lifo|exact HP']. }
    assert (CS : exists sc s1,
               childScore rec depth alpha beta ply
                 (fst (drawFlags (makeMove b0 (move sm)) (move sm)))
                 (with_board s (makeMove b0 (move sm))) = Some (sc, s1) /\
               board s1 = makeMove b0 (move sm)).
    { destruct (fst (drawFlags _ _)).
      - rewrite childScore_draw. eexists _, _. split; reflexivity.
      - rewrite childScore_rec.
        destruct (Hrec (sub32 depth 1) (neg32 beta) (neg32 alpha)
                       (add32 ply 1)
                       (with_board s (makeMove b0 (move sm))) (Hsm _ _ _))
          as (r & s1 & -> & Hb1).
        eexists _, _. split; [reflexivity|exact Hb1]. }
    destruct CS as (sc & s1 & -> & Hb1).
    st_simpl. rewrite Hb1, lifo.
    assert (B2 : board (polled (with_board s1 b0)) = b0) by reflexivity.
    destruct (stop_at (polls s1));
      [eexists _, _; split; [reflexivity|exact B2]|].
    destruct (beta <=? sc).
    { destruct (betaCutoff_runs (move sm) depth ply sc
                  (snd (drawFlags (makeMove b0 (move sm)) (move sm)))
                  (polled (with_board s1 b0))) as (s3 & -> & Hb3 & _).
      eexists _, _. split; [reflexivity|]. rewrite Hb3. exact B2. }
    destruct (alpha <? sc); [apply IH; [lia|exact B2|exact HP']|].
    destruct (bestScore <? sc); apply IH; try lia; assumption.
Qed.

Variable mu : ChessBoard -> nat.

Hypothesis mu_moves :
  forall b m, In m (pseudoLegalMoves b) -> (mu (makeMove b m) <= mu b)%nat.

Hypothesis mu_tactical :
  forall b m, In m (tacticalMoves b) -> (mu (makeMove b m) < mu b)%nat.

Lemma quiesce_restores :
  forall fuel alpha beta ply depth s,
    (mu (board s) < fuel)%nat ->
    exists r s',
      quiesce fuel alpha beta ply depth s = Some (r, s') /\
      board s' = board s.
Proof.
  induction fuel as [|fuel IH]; intros alpha beta ply depth s Hmu; [lia|].
  rewrite quiesce_unfold.
  destruct (stop_at (polls s)); [eexists _, _; split; reflexivity|].
  cbv zeta.
  destruct (beta <=? _); [eexists _, _; split; reflexivity|].
  match goal with |- context [if ?c then _ else _] => destruct c end;
    [eexists _, _; split; reflexivity|].
  match goal with |- context [getTransposition ?h ?d ?p ?sc ?a ?b ?m ?st] =>
    destruct (getTransposition_runs h d p sc a b m st) as (pr & t & ->)
  end.
  destruct (hit pr); [eexists _, _; split; reflexivity|].
  cbv zeta. st_simpl.
  apply (quiesceLoop_restores (quiesce fuel)
           (fun _ _ _ _ b => (mu b < fuel)%nat)).
  - intros a b c d s0 H0. apply IH. exact H0.
  - unfold scoreTacticalMoves. rewrite length_map. reflexivity.
  - reflexivity.
  - rewrite drop_0. unfold scoreTacticalMoves. rewrite Forall_map.
    apply Forall_forall. intros m Hm _ _ _ _. cbn [move].
    apply list_elem_of_In in Hm.
    pose proof (mu_tactical (board s) m Hm). lia.
Qed.

Lemma alphaBeta_restores :
  forall fuel depth alpha beta ply s,
    0 <= depth <= INT32_MAX ->
    (Z.to_nat depth + mu (board s) + 1 < fuel)%nat ->
    exists r s',
      alphaBeta fuel depth alpha beta ply s = Some (r, s') /\
      board s' = board s.
Proof.
  induction fuel as [|fuel IH]; intros depth alpha beta ply s Hd Hmu; [lia|].
  rewrite alphaBeta_unfold.
  destruct (stop_at (polls s)); [eexists _, _; split; reflexivity|].
  destruct (Z.eqb_spec depth 0) as [->|Hne].
  { destruct (quiesce_restores fuel alpha beta ply 0 (polled s))
      as (r & s' & E & Hb); [st_simpl; lia|].
    eexists _, _. split; [exact E|exact Hb]. }
  match goal with |- context [getTransposition ?h ?d ?p ?sc ?a ?b ?m ?st] =>
    destruct (getTransposition_runs h d p sc a b m st) as (pr & t & ->)
  end.
  destruct (hit pr); [eexists _, _; split; reflexivity|].
  cbv zeta.
  destruct (_ <=? _); [eexists _, _; split; reflexivity|].
  st_simpl.
  apply (alphaBetaLoop_restores (alphaBeta fuel)
           (fun d _ _ _ b => d = depth - 1 /\ (mu b <= mu (board s))%nat)).
  - intros a b c d s0 [-> H0]. apply IH; [int_range|].
    rewrite Z2Nat.inj_sub by lia. change (Z.to_nat 1) with 1%nat. lia.
  - unfold scoreMoves. rewrite length_map. reflexivity.
  - reflexivity.
  - rewrite drop_0. unfold scoreMoves. rewrite Forall_map.
    apply Forall_forall. intros m Hm _ _ _. cbn [move].
    apply list_elem_of_In in Hm.
    split; [apply sub32_id; int_range|apply mu_moves, Hm].
Qed.

(** Every call of [alphaBeta] and of [quiesce] returns, and returns with the
    board it was given, whatever the stop flag does and whatever the table
    holds. The assumptions are that [unMakeMove] undoes [makeMove], and that
    no line of captures and promotions goes on for ever: a measure of the
    position that no move increases and every tactical move decreases. The
    fuel of the model only has to exceed the depth plus that measure. *)
Theorem search_restores_board (fuel : nat) (depth alpha beta ply qdepth : Z)
        (s : Search) :
  0 <= depth <= INT32_MAX ->
  (Z.to_nat depth + mu (board s) + 1 < fuel)%nat ->
  (exists r s',
      alphaBeta fuel depth alpha beta ply s = Some (r, s') /\
      board s' = board s) /\
  (exists r s',
      quiesce fuel alpha beta ply qdepth s = Some (r, s') /\
      board s' = board s).
Proof.
  intros Hd Hf. split.
  - apply alphaBeta_restores; assumption.
  - apply quiesce_restores. lia.
Qed.

End BoardDiscipline.

Lemma tableGame_lifo (G : TableGame) (b : list Z) (m : Move) :
  @unMakeMove (tableGame G) (@makeMove (tableGame G) b m) = b.
Proof. reflexivity. Qed.

Lemma game1_mu_moves (b : list Z) (m : Move) :
  In m (@pseudoLegalMoves (tableGame game1) b) ->
  (game1_mu (@makeMove (tableGame game1) b m) <= game1_mu b)%nat.
Proof.
  unfold game1_mu. cbn. set (n := g_node b).
  destruct (Z.eqb_spec n 0); [|destruct (Z.eqb_spec n 2);
                                [|destruct (Z.eqb_spec n 3)]];
    cbn; intros H; repeat (destruct H as [<-|H]; [cbn; lia|]);
    destruct H.
Qed.

Lemma game1_mu_tactical (b : list Z) (m : Move) :
  In m (@tacticalMoves (tableGame game1) b) ->
  (game1_mu (@makeMove (tableGame game1) b m) < game1_mu b)%nat.
Proof.
  unfold game1_mu. cbn. set (n := g_node b).
  destruct (Z.eqb_spec n 0), (Z.eqb_spec n 2), (Z.eqb_spec n 3); try lia;
    cbn; intros H; repeat (destruct H as [<-|H]; [cbn; lia|]);
    destruct H.
Qed.

(** The depth-1 search of game 1 returns with the root on the board. *)
Lemma search_restores_board_witness :
  exists r s',
    @alphaBeta (tableGame game1) 5 1 (INT32_MIN + 1) INT32_MAX 0
               (freshSearch game1) = Some (r, s') /\
    board s' = [].
Proof.
  refine (proj1 (@search_restores_board (tableGame game1)
                   (tableGame_lifo game1) game1_mu game1_mu_moves
                   game1_mu_tactical 5 1 (INT32_MIN + 1) INT32_MAX 0 0
                   (freshSearch game1) _ _)).
  - vm_compute. split; discriminate.
  - vm_compute. lia.
Defined.

(** ** Cancellation *)

Section Cancellation.

Context {C : Collaborators}.

Lemma quiesceLoop_stopped rec beta ply depth :
  zero_when_stopped rec ->
  forall n i moves alpha bestScore bestMove nodeType s r s',
    (0 < polls s)%nat -> stop_at (pred (polls s)) = false ->
    quiesceLoop rec beta ply depth n i moves alpha bestScore bestMove
                nodeType s = Some (r, s') ->
    (polls s <= polls s')%nat /\
    (stop_at (pred (polls s')) = true -> r = 0).
Proof.
  intros Hrec. induction n as [|n IH];
    intros i moves alpha bestScore bestMove nodeType s r s' Hp Hs E.
  - rewrite quiesceLoop_end in E. injection E as <- <-. st_simpl.
    split; [lia|congruence].
  - destruct (selectMove moves i) as [m moves'] eqn:Es.
    rewrite (quiesceLoop_step _ _ _ _ _ _ _ _ _ _ _ _ _ _ Es) in E.
    cbv zeta in E.
    destruct (inCheck _ _).
    { apply IH in E; [exact E|exact Hp|exact Hs]. }
    destruct (rec _ _ _ _ _) as [[r1 s1]|] eqn:Er; [|discriminate].
    apply Hrec in Er. destruct Er as [Hlt _]. st_simpl.
    assert (P2 : (0 < polls (polled (with_board s1 (unMakeMove (board s1)))))%nat)
      by (st_simpl; lia).
    destruct (stop_at (polls s1)) eqn:St.
    { injection E as <- <-. st_simpl. cbn [pred]. split; [lia|reflexivity]. }
    assert (Fin : forall x st, Some (x, st) = Some (r, s') ->
                    polls st = S (polls s1) ->
                    (polls s <= polls s')%nat /\
                    (stop_at (pred (polls s')) = true -> r = 0)).
    { intros x st E' Hst. injection E' as <- <-. rewrite Hst. cbn [pred].
      split; [lia|congruence]. }
    assert (Go : forall a bs bm nt,
               quiesceLoop rec beta ply depth n (S i) moves' a bs bm nt
                 (polled (with_board s1 (unMakeMove (board s1))))
               = Some (r, s') ->
               (polls s <= polls s')%nat /\
               (stop_at (pred (polls s')) = true -> r = 0)).
    { intros a bs bm nt E'. apply IH in E'; [|exact P2|exact St].
      st_simpl. split; [lia|tauto]. }
    destruct (beta <=? neg32 r1); [apply (Fin _ _ E); reflexivity|].
    destruct (alpha <? neg32 r1); [exact (Go _ _ _ _ E)|].
    destruct (bestScore <? neg32 r1); exact (Go _ _ _ _ E).
Qed.

Lemma quiesce_stopped (fuel : nat) : zero_when_stopped (quiesce fuel).
Proof.
  induction fuel as [|fuel IH]; intros alpha beta ply depth s r s' E;
    [discriminate|].
  rewrite quiesce_unfold in E.
  assert (Fin : stop_at (polls s) = false ->
                forall x t, Some (x, with_tt (polled s) t) = Some (r, s') ->
                  (polls s < polls s')%nat /\
                  (stop_at (pred (polls s')) = true -> r = 0)).
  { intros St x t E'. injection E' as <- <-. st_simpl. cbn [pred].
    split; [lia|congruence]. }
  assert (R : forall st, with_tt st (tt st) = st) by (intros []; reflexivity).
  destruct (stop_at (polls s)) eqn:St.
  { injection E as <- <-. st_simpl. cbn [pred]. split; [lia|reflexivity]. }
  cbv zeta in E.
  destruct (beta <=? _);
    [rewrite <- (R (polled s)) in E; exact (Fin eq_refl _ _ E)|].
  match type of E with context [if ?c then _ else _] => destruct c end;
    [rewrite <- (R (polled s)) in E; exact (Fin eq_refl _ _ E)|].
  match type of E with context [getTransposition ?h ?d ?p ?sc ?a ?b ?m ?st] =>
    destruct (getTransposition_runs h d p sc a b m st) as (pr & t & Eg)
  end.
  rewrite Eg in E.
  destruct (hit pr); [exact (Fin eq_refl _ _ E)|].
  cbv zeta in E.
  apply (quiesceLoop_stopped _ _ _ _ IH) in E; st_simpl; [|lia|exact St].
  split; [lia|tauto].
Qed.

Lemma alphaBetaLoop_stopped rec depth beta ply :
  zero_when_stopped rec ->
  forall n i moves alpha bestScore bestMove nodeType noStore hasLegalMoves
         s r s',
    (0 < polls s)%nat -> stop_at (pred (polls s)) = false ->
    alphaBetaLoop rec depth beta ply n i moves alpha bestScore bestMove
                  nodeType noStore hasLegalMoves s = Some (r, s') ->
    (polls s <= polls s')%nat /\
    (stop_at (pred (polls s')) = true -> r = 0).
Proof.
  intros Hrec. induction n as [|n IH];
    intros i moves alpha bestScore bestMove nodeType noStore hasLegalMoves
           s r s' Hp Hs E.
  - rewrite alphaBetaLoop_end in E.
    destruct hasLegalMoves; [destruct noStore|destruct (inCheck _ _)];
      injection E as <- <-; st_simpl; (split; [lia|congruence]).
  - destruct (selectMove moves i) as [m moves'] eqn:Es.
    rewrite (alphaBetaLoop_step _ _ _ _ _ _ _ _ _ _ _ _ _ _ _ _ Es) in E.
    cbv zeta in E.
    destruct (inCheck _ _).
    { apply IH in E; [exact E|exact Hp|exact Hs]. }
    destruct (childScore _ _ _ _ _ _ _) as [[sc s1]|] eqn:Ec; [|discriminate].
    assert (Hlt : (polls s <= polls s1)%nat).
    { destruct (fst (drawFlags _ _)).
      - rewrite childScore_draw in Ec. injection Ec as <- <-. st_simpl. lia.
      - rewrite childScore_rec in Ec.
        destruct (rec _ _ _ _ _) as [[r1 s1']|] eqn:Er; [|discriminate].
        injection Ec as <- <-. apply Hrec in Er. st_simpl. lia. }
    assert (P2 : (0 < polls (polled (with_board s1 (unMakeMove (board s1)))))%nat)
      by (st_simpl; lia).
    destruct (stop_at (polls s1)) eqn:St.
    { injection E as <- <-. st_simpl. cbn [pred]. split; [lia|reflexivity]. }
    assert (Go : forall a bs bm nt ns hl,
               alphaBetaLoop rec depth beta ply n (S i) moves' a bs bm nt ns hl
                 (polled (with_board s1 (unMakeMove (board s1))))
               = Some (r, s') ->
               (polls s <= polls s')%nat /\
               (stop_at (pred (polls s')) = true -> r = 0)).
    { intros a bs bm nt ns hl E'. apply IH in E'; [|exact P2|exact St].
      st_simpl. split; [lia|tauto]. }
    destruct (beta <=? sc).
    { match type of E with betaCutoff ?a ?b ?c ?d ?e ?f = _ =>
        destruct (betaCutoff_runs a b c d e f) as (s3 & E3 & _ & Hp3 & _)
      end.
      rewrite E3 in E. injection E as <- <-. rewrite Hp3. st_simpl.
      cbn [pred]. split; [lia|congruence]. }
    destruct (alpha <? sc); [exact (Go _ _ _ _ _ _ E)|].
    destruct (bestScore <? sc); exact (Go _ _ _ _ _ _ E).
Qed.

Lemma alphaBeta_stopped (fuel : nat) : zero_when_stopped (alphaBeta fuel).
Proof.
  induction fuel as [|fuel IH]; intros depth alpha beta ply s r s' E;
    [discriminate|].
  rewrite alphaBeta_unfold in E.
  assert (Fin : stop_at (polls s) = false ->
                forall x t, Some (x, with_tt (polled s) t) = Some (r, s') ->
                  (polls s < polls s')%nat /\
                  (stop_at (pred (polls s')) = true -> r = 0)).
  { intros St x t E'. injection E' as <- <-. st_simpl. cbn [pred].
    split; [lia|congruence]. }
  destruct (stop_at (polls s)) eqn:St.
  { injection E as <- <-. st_simpl. cbn [pred]. split; [lia|reflexivity]. }
  destruct (depth =? 0).
  { apply quiesce_stopped in E. st_simpl. split; [lia|tauto]. }
  match type of E with context [getTransposition ?h ?d ?p ?sc ?a ?b ?m ?st] =>
    destruct (getTransposition_runs h d p sc a b m st) as (pr & t & Eg)
  end.
  rewrite Eg in E.
  destruct (hit pr); [exact (Fin eq_refl _ _ E)|].
  cbv zeta in E.
  destruct (_ <=? _); [exact (Fin eq_refl _ _ E)|].
  apply (alphaBetaLoop_stopped _ _ _ _ IH) in E; st_simpl; [|lia|exact St].
  split; [lia|tauto].
Qed.

(** Once raised, the stop flag stays raised; then a returning call during
    which the flag was seen raised has returned 0. *)
Lemma stop_seen_gives_zero (fuel : nat) (a b c d : Z)
        (s : Search) (r : Z) (s' : Search) (n : nat) :
  (forall k, stop_at k = true -> stop_at (S k) = true) ->
  alphaBeta fuel a b c d s = Some (r, s') \/
  quiesce fuel a b c d s = Some (r, s') ->
  (polls s <= n < polls s')%nat ->
  stop_at n = true ->
  r = 0.
Proof.
  intros Hmono E Hn Hstop.
  assert (Up : forall k, stop_at (n + k) = true).
  { induction k as [|k IHk].
    - rewrite Nat.add_0_r. exact Hstop.
    - rewrite Nat.add_succ_r. apply Hmono, IHk. }
  assert (L : stop_at (pred (polls s')) = true).
  { replace (pred (polls s')) with (n + (pred (polls s') - n))%nat by lia.
    apply Up. }
  destruct E as [E|E].
  - apply alphaBeta_stopped in E. tauto.
  - apply quiesce_stopped in E. tauto.
Qed.

End Cancellation.


(** ** Move ordering: selection, hash move, killer moves *)

Lemma scanMax_first (rest : list ScoredMove) :
  forall (i k : nat) (sel : ScoredMove) k' sel',
    scanMax rest i k sel = (k', sel') ->
    (k' = k /\ sel' = sel) \/
    (exists j, k' = (i + j)%nat /\ rest !! j = Some sel' /\
               score sel < score sel' /\
               forall j' x, (j' < j)%nat -> rest !! j' = Some x ->
                            score x < score sel').
Proof.
  induction rest as [|x rest IH]; intros i k sel k' sel' E; simpl in E.
  - injection E as <- <-. left. auto.
  - destruct (Z.ltb_spec (score sel) (score x)) as [Hlt|Hge];
      apply IH in E; destruct E as [[-> ->] | (j & -> & Hj & Hs & Hb)].
    + right. exists O. split; [lia|]. split; [reflexivity|].
      split; [exact Hlt|]. intros j' y Hj'. lia.
    + right. exists (S j). split; [lia|]. split; [exact Hj|].
      split; [lia|]. intros [|j'] y Hj' Hy.
      * injection Hy as <-. exact Hs.
      * apply (Hb j' y); [lia|exact Hy].
    + left. auto.
    + right. exists (S j). split; [lia|]. split; [exact Hj|].
      split; [exact Hs|]. intros [|j'] y Hj' Hy.
      * injection Hy as <-. lia.
      * apply (Hb j' y); [lia|exact Hy].
Qed.

(** [selectMove] at an index in range: it returns the move of the first
    best-scored element at or after the index, exchanges that element with
    the one at the index, and so permutes the vector without touching what
    lies before the index. *)
Theorem selectMove_picks_first_maximum (moves : list ScoredMove) (i : nat) :
  (i < length moves)%nat ->
  let moves' := snd (selectMove moves i) in
  exists k sm first,
    (i <= k < length moves)%nat /\
    moves !! k = Some sm /\ moves !! i = Some first /\
    fst (selectMove moves i) = move sm /\
    moves' = <[i := sm]> (<[k := first]> moves) /\
    (forall j x, (i <= j)%nat -> moves !! j = Some x ->
                 score x <= score sm) /\
    (forall j x, (i <= j < k)%nat -> moves !! j = Some x ->
                 score x < score sm) /\
    take i moves' = take i moves /\
    moves' ≡ₚ moves.
Proof.
  intros Hi. cbv zeta.
  destruct (selectMove moves i) as [m moves'] eqn:E. cbn [fst snd].
  destruct (selectMove_spec moves i m moves' Hi E)
    as (sm0 & Hm & Hl & Ht & Hd & Hperm & Hmax).
  unfold selectMove in E.
  destruct (lookup_lt_is_Some_2 moves i Hi) as [first Hf].
  rewrite (nth_lookup_Some _ _ _ _ Hf) in E.
  destruct (scanMax (drop (S i) moves) (S i) i first) as [k sel] eqn:Es.
  injection E as E1 E2.
  assert (sm0 = sel).
  { rewrite <- E2 in Hd.
    assert (L : (<[i:=sel]> (<[k:=first]> moves)) !! i = Some sel).
    { apply list_lookup_insert_eq. rewrite length_insert. exact Hi. }
    pose proof (drop_S _ _ _ L) as D. rewrite D in Hd.
    injection Hd as ->. reflexivity. }
  subst sm0.
  assert (P : moves' ≡ₚ moves).
  { rewrite <- (take_drop i moves'), <- (take_drop i moves), Ht, Hd.
    rewrite Hperm. reflexivity. }
  assert (Mx : forall j x, (i <= j)%nat -> moves !! j = Some x ->
                           score x <= score sel).
  { intros j x Hj Hx. rewrite Forall_forall in Hmax. apply Hmax.
    apply list_elem_of_lookup. exists (j - i)%nat.
    rewrite lookup_drop. replace (i + (j - i))%nat with j by lia. exact Hx. }
  apply scanMax_first in Es.
  destruct Es as [[-> ->] | (j & -> & Hj & Hs & Hb)].
  - exists i, first, first. repeat split; auto; try lia.
  - rewrite lookup_drop in Hj.
    exists (S i + j)%nat, sel, first.
    split; [split; [lia|eapply lookup_lt_Some; eauto]|].
    repeat split; auto.
    intros j' x Hj' Hx.
    destruct (Nat.eq_dec j' i) as [->|Hne].
    + rewrite Hf in Hx. injection Hx as <-. exact Hs.
    + apply (Hb (j' - S i)%nat x); [lia|].
      rewrite lookup_drop. replace (S i + (j' - S i))%nat with j' by lia.
      exact Hx.
Qed.

Lemma selectMove_picks_first_maximum_witness :
  exists k sm first,
    (1 <= k < 4)%nat /\
    fst (selectMove [mkScoredMove (mkMove 1 1 0 0) 9;
                     mkScoredMove (mkMove 2 2 0 0) 3;
                     mkScoredMove (mkMove 3 3 0 0) 7;
                     mkScoredMove (mkMove 4 4 0 0) 7] 1) = move sm /\
    score sm = 7 /\ k = 2%nat /\ score first = 3.
Proof.
  destruct (selectMove_picks_first_maximum
              [mkScoredMove (mkMove 1 1 0 0) 9;
               mkScoredMove (mkMove 2 2 0 0) 3;
               mkScoredMove (mkMove 3 3 0 0) 7;
               mkScoredMove (mkMove 4 4 0 0) 7] 1 ltac:(cbn; lia))
    as (k & sm & first & Hk & Hsm & Hf & Hm & _ & Hmax & Hfirst & _).
  exists k, sm, first. cbn in Hk.
  injection Hf as <-.
  assert (k = 2%nat).
  { destruct k as [|[|[|[|k]]]]; try lia.
    - cbn in Hsm. injection Hsm as <-.
      pose proof (Hmax 2%nat _ ltac:(lia) eq_refl) as H. cbn in H. lia.
    - cbn in Hsm. injection Hsm as <-.
      pose proof (Hfirst 2%nat _ ltac:(lia) eq_refl) as H. cbn in H. lia. }
  subst k. cbn in Hsm. injection Hsm as <-.
  repeat split; auto.
Defined.

Section Ordering.

Context {C : Collaborators}.

Hypothesis material_small : forall i, 0 <= mg_value i < 16384.

Lemma scoreMove_below_hash (s : Search) (ply : Z) (hashMove m : Move) :
  (forall c a b, history s c a b < 2 ^ 30) ->
  m <> hashMove ->
  scoreMove s ply hashMove m < 2 ^ 30.
Proof.
  intros Hh Hne. change (2 ^ 30) with 1073741824 in *.
  unfold scoreMove.
  destruct (pvMatch _ _ _); [vm_compute; reflexivity|].
  destruct (Move_eqb m hashMove) eqn:Eh;
    [apply Move_eqb_eq in Eh; congruence|].
  destruct (negb (promotionType m =? 0)).
  { pose proof (material_small (promotionType m - 1)).
    pose proof (material_small 0).
    rewrite sub32_id by int_range. lia. }
  destruct (isQuietFlag m).
  { destruct (_ || _); [vm_compute; reflexivity|apply Hh]. }
  destruct (flag m =? 6); [vm_compute; reflexivity|].
  set (v := mg_value (flag m - 1)).
  set (a := mg_value (squares_type (board s) (start m) - 1)).
  pose proof (material_small (flag m - 1)) as Hv. fold v in Hv.
  pose proof (material_small (squares_type (board s) (start m) - 1)) as Ha.
  fold a in Ha.
  rewrite (sub32_id v a) by int_range.
  rewrite (add32_id 0 (v - a)) by int_range.
  change (0 + (v - a)) with (v - a).
  destruct (Z.eqb_spec (v - a) 0).
  - vm_compute. reflexivity.
  - destruct (Z.ltb_spec 0 (v - a)).
    + rewrite shl32_16 by lia. rewrite add32_id by int_range. lia.
    + rewrite add32_id by int_range. lia.
Qed.

Lemma scoreTacticalMove_below_hash (s : Search) (hashMove m : Move) :
  m <> hashMove ->
  scoreTacticalMove s hashMove m < 2 ^ 30.
Proof.
  intros Hne. change (2 ^ 30) with 1073741824.
  unfold scoreTacticalMove.
  destruct (Move_eqb m hashMove) eqn:Eh;
    [apply Move_eqb_eq in Eh; congruence|].
  pose proof (material_small (promotionType m - 1)).
  pose proof (material_small 0).
  pose proof (material_small (flag m - 1)).
  pose proof (material_small (squares_type (board s) (start m) - 1)).
  destruct (negb _); rewrite sub32_id by int_range; lia.
Qed.

(** A scored list in which exactly the entries of one move reach 2^30 has
    that move selected first. *)
Lemma selectMove_finds_top (f : Move -> Z) (moves : list Move) (h : Move) :
  In h moves -> f h = 2 ^ 30 ->
  (forall m, m <> h -> f m < 2 ^ 30) ->
  fst (selectMove (map (fun m => mkScoredMove m (f m)) moves) 0) = h.
Proof.
  intros Hin Hh Hlow.
  set (l := map (fun m => mkScoredMove m (f m)) moves).
  assert (Hl : (0 < length l)%nat).
  { unfold l. rewrite length_map. destruct moves; [destruct Hin|cbn; lia]. }
  destruct (selectMove l 0) as [m l'] eqn:E. cbn [fst].
  destruct (selectMove_spec l 0 m l' Hl E)
    as (sm & -> & _ & _ & _ & Hperm & Hmax).
  rewrite drop_0 in Hperm, Hmax.
  assert (Hsm : sm ∈ l).
  { rewrite Hperm. left. }
  apply list_elem_of_fmap in Hsm. destruct Hsm as (m & -> & _).
  cbn [move score] in *.
  rewrite Forall_forall in Hmax.
  assert (Hx : mkScoredMove h (f h) ∈ l).
  { apply list_elem_of_fmap. exists h. split; [reflexivity|].
    apply list_elem_of_In. exact Hin. }
  apply Hmax in Hx. cbn [score] in Hx.
  destruct (Move_eqb m h) eqn:Em; [apply Move_eqb_eq in Em; exact Em|].
  assert (m <> h) by (intros ->; rewrite Move_eqb_refl in Em; discriminate).
  pose proof (Hlow m H). lia.
Qed.

(** The hint of the cache comes first. When the hash move is among the
    generated moves, the first move that the loop of [alphaBeta] selects
    from [scoreMoves] is the hash move, provided it is not also taken for
    the principal-variation move and the history scores are below 2^30;
    and the first move that the loop of [quiesce] selects from
    [scoreTacticalMoves] is the hash move. Material values are taken in
    [0, 16384). *)
Theorem hash_move_is_tried_first (s : Search) (moves : list Move) (ply : Z)
        (hashMove : Move) :
  In hashMove moves ->
  (pvMatch (lastPV s) ply hashMove = false ->
   (forall c a b, history s c a b < 2 ^ 30) ->
   fst (selectMove (scoreMoves s moves ply hashMove) 0) = hashMove) /\
  fst (selectMove (scoreTacticalMoves s moves hashMove) 0) = hashMove.
Proof.
  intros Hin. split.
  - intros Hpv Hh. unfold scoreMoves.
    apply (selectMove_finds_top (scoreMove s ply hashMove)); [exact Hin| |].
    + unfold scoreMove. rewrite Hpv, Move_eqb_refl. reflexivity.
    + intros m Hm. apply scoreMove_below_hash; assumption.
  - unfold scoreTacticalMoves.
    apply (selectMove_finds_top (scoreTacticalMove s hashMove)); [exact Hin| |].
    + unfold scoreTacticalMove. rewrite Move_eqb_refl. reflexivity.
    + intros m Hm. apply scoreTacticalMove_below_hash; assumption.
Qed.

End Ordering.

Lemma hash_move_is_tried_first_witness :
  let moves := [game3_quiet; game3_queen_takes_pawn; game3_promotion;
                game3_flag6] in
  fst (selectMove (@scoreMoves (tableGame game3) (freshSearch game3)
                     moves 0 game3_queen_takes_pawn) 0)
  = game3_queen_takes_pawn /\
  fst (selectMove (@scoreTacticalMoves (tableGame game3) (freshSearch game3)
                     moves game3_queen_takes_pawn) 0)
  = game3_queen_takes_pawn.
Proof.
  cbv zeta.
  destruct (@hash_move_is_tried_first (tableGame game3) material_range
              (freshSearch game3)
              [game3_quiet; game3_queen_takes_pawn; game3_promotion;
               game3_flag6] 0 game3_queen_takes_pawn
              ltac:(right; left; reflexivity)) as [H1 H2].
  split; [|exact H2].
  apply H1; [reflexivity|]. intros c a b. reflexivity.
Defined.

Section Killers.

Context {C : Collaborators}.

(** [storeKillerMove] always returns and touches only the killer table, and
    there only the ply it is given. A move that is not quiet (a capture or
    flag 6) or that promotes is never recorded. A quiet move without
    promotion is one of the two killers of the ply afterwards; if it was
    neither of them before, the two killers of the ply differ afterwards;
    if it was one of them, nothing changes. *)
Theorem storeKillerMove_records_quiet_moves (m : Move) (ply : Z)
        (s : Search) :
  exists s',
    storeKillerMove m ply s = Some ((), s') /\
    board s' = board s /\ tt s' = tt s /\ history s' = history s /\
    lastPV s' = lastPV s /\ polls s' = polls s /\
    (forall p i, p <> ply -> killerMoves s' p i = killerMoves s p i) /\
    (forall i, i <> 0 -> i <> 1 ->
               killerMoves s' ply i = killerMoves s ply i) /\
    (isQuietFlag m = false \/ promotionType m <> 0 -> s' = s) /\
    (killerMoves s ply 0 = m \/ killerMoves s ply 1 = m -> s' = s) /\
    (isQuietFlag m = true -> promotionType m = 0 ->
     (killerMoves s' ply 0 = m \/ killerMoves s' ply 1 = m) /\
     (killerMoves s ply 0 <> m -> killerMoves s ply 1 <> m ->
      killerMoves s' ply 0 <> killerMoves s' ply 1)).
Proof.
  unfold storeKillerMove, bind, get, ret, set_killers.
  destruct (isQuietFlag m) eqn:Q; cbn [andb].
  2:{ exists s. repeat split; intros; auto; try congruence. }
  destruct (Z.eqb_spec (promotionType m) 0) as [P|P].
  2:{ exists s. repeat split; intros; auto; try congruence. }
  destruct (Move_eqb (killerMoves s ply 0) m) eqn:K0.
  { apply Move_eqb_eq in K0. exists s.
    repeat split; intros; auto; congruence. }
  destruct (Move_eqb (killerMoves s ply 1) m) eqn:K1.
  { apply Move_eqb_eq in K1. exists s.
    repeat split; intros; auto; congruence. }
  assert (N0 : killerMoves s ply 0 <> m)
    by (intros E; apply Move_eqb_eq in E; congruence).
  assert (N1 : killerMoves s ply 1 <> m)
    by (intros E; apply Move_eqb_eq in E; congruence).
  destruct (killerMoveIndexOne s || Move_eqb (killerMoves s ply 0) NULL_MOVE);
    eexists; (split; [reflexivity|]); st_simpl;
    repeat split; intros; auto; try tauto; try congruence;
    try (destruct (Z.eqb_spec p ply); [congruence|reflexivity]);
    try (rewrite Z.eqb_refl; cbn [andb];
         destruct (Z.eqb_spec i 0); destruct (Z.eqb_spec i 1);
         try congruence; reflexivity);
    rewrite ?Z.eqb_refl; cbn; auto;
    try congruence;
    match goal with H : _ \/ _ |- _ => destruct H; congruence end.
Qed.

End Killers.

(** ** The fifty-move rule inside the move loop *)

Section FiftyMoves.

Context {C : Collaborators}.

(** C6. One iteration of the move loop of [alphaBeta]. Let [m] be the move
    that [selectMove] picks at index [i] and [b'] the board after
    [makeMove]. When [m] is legal (the mover is not left in check), the
    half-move clock of [b'] is at least 100, the origin square of [m] holds
    no pawn on [b'] and the flag of [m] is not a capture flag (1..5), the
    iteration goes on with the score 0 and without the recursive call: the
    move is undone, the stop flag is read, and 0 is what is compared with
    beta, alpha and the best score ([threefold] being false, the store of a
    cutoff is not suppressed and [noStore] is reset). The state handed on,
    [s2], is [s] with the board undone and one more read of the flag:
    nothing below the move has run. When the move is the last one of the
    list, the result of the loop does not depend on the recursive call at
    all. *)
Theorem fifty_move_rule_in_alphaBeta (rec : Z -> Z -> Z -> Z -> M Z)
        (depth beta ply : Z) (n i : nat) (moves : list ScoredMove)
        (alpha bestScore : Z) (bestMove : Move) (nodeType : NodeType)
        (noStore hasLegalMoves : bool) (s : Search) :
  let m := fst (selectMove moves i) in
  let moves' := snd (selectMove moves i) in
  let b' := makeMove (board s) m in
  let s2 := polled (with_board s (unMakeMove b')) in
  inCheck b' (invertColor (sideToMove b')) = false ->
  100 <= halfMoveClock b' ->
  squares_type b' (start m) <> PAWN ->
  ~ (1 <= flag m <= 5) ->
  alphaBetaLoop rec depth beta ply (S n) i moves alpha bestScore bestMove
                nodeType noStore hasLegalMoves s =
  (if stop_at (polls s) then Some (0, s2)
   else if beta <=? 0 then betaCutoff m depth ply 0 false s2
   else if alpha <? 0 then
     alphaBetaLoop rec depth beta ply n (S i) moves' 0 0 m EXACT noStore true
                   s2
   else if bestScore <? 0 then
     alphaBetaLoop rec depth beta ply n (S i) moves' alpha 0 m nodeType false
                   true s2
   else
     alphaBetaLoop rec depth beta ply n (S i) moves' alpha bestScore bestMove
                   nodeType noStore true s2) /\
  (n = O ->
   forall rec',
     alphaBetaLoop rec depth beta ply (S n) i moves alpha bestScore bestMove
                   nodeType noStore hasLegalMoves s =
     alphaBetaLoop rec' depth beta ply (S n) i moves alpha bestScore bestMove
                   nodeType noStore hasLegalMoves s).
Proof.
  cbv zeta. intros Hlegal Hclock Hpawn Hcap.
  destruct (selectMove moves i) as [m moves'] eqn:E. cbn [fst snd] in *.
  destruct (fifty_move_rule_scores_zero rec depth alpha beta ply
              (makeMove (board s) m) m Hclock Hpawn Hcap) as [D _].
  assert (Step : forall r,
    alphaBetaLoop r depth beta ply (S n) i moves alpha bestScore bestMove
                  nodeType noStore hasLegalMoves s =
    (if stop_at (polls s)
     then Some (0, polled (with_board s (unMakeMove (makeMove (board s) m))))
     else if beta <=? 0
     then betaCutoff m depth ply 0 false
            (polled (with_board s (unMakeMove (makeMove (board s) m))))
     else if alpha <? 0 then
       alphaBetaLoop r depth beta ply n (S i) moves' 0 0 m EXACT noStore true
         (polled (with_board s (unMakeMove (makeMove (board s) m))))
     else if bestScore <? 0 then
       alphaBetaLoop r depth beta ply n (S i) moves' alpha 0 m nodeType false
         true (polled (with_board s (unMakeMove (makeMove (board s) m))))
     else
       alphaBetaLoop r depth beta ply n (S i) moves' alpha bestScore bestMove
         nodeType noStore true
         (polled (with_board s (unMakeMove (makeMove (board s) m)))))).
  { intros r.
    rewrite (alphaBetaLoop_step _ _ _ _ _ _ _ _ _ _ _ _ _ _ _ _ E).
    cbv zeta. rewrite Hlegal, D. cbn [fst snd].
    rewrite childScore_draw. st_simpl. reflexivity. }
  split; [apply Step|].
  intros -> rec'. rewrite (Step rec), (Step rec').
  rewrite !alphaBetaLoop_end. reflexivity.
Qed.

End FiftyMoves.

(** The rule on game 3, whose clock stands at 100: at the root the move
    with flag 6 is selected first, and the loop goes on to the second move
    with alpha raised to 0 and that move as the best one, the state being
    the fresh one with one read of the stop flag. *)
Lemma fifty_move_rule_in_alphaBeta_witness :
  let s := freshSearch game3 in
  let moves := @scoreMoves (tableGame game3) s
                 (@pseudoLegalMoves (tableGame game3) (board s)) 0 Move_zero in
  @alphaBetaLoop (tableGame game3) (alphaBeta 3) 1 65536 0 4 0 moves
                 (-65536) INT32_MIN Move_zero UPPERBOUND false false s =
  @alphaBetaLoop (tableGame game3) (alphaBeta 3) 1 65536 0 3 1
                 (snd (selectMove moves 0))
                 0 0 game3_flag6 EXACT false true (polled s).
Proof.
  cbv zeta.
  refine (proj1 (@fifty_move_rule_in_alphaBeta (tableGame game3)
                   (alphaBeta 3) 1 65536 0 3 0 _ (-65536) INT32_MIN
                   Move_zero UPPERBOUND false false (freshSearch game3)
                   _ _ _ _)).
  - reflexivity.
  - vm_compute. discriminate.
  - vm_compute. discriminate.
  - intros [_ H]. vm_compute in H. apply H. reflexivity.
Defined.

Section CancellationUnwinds.

Context {C : Collaborators}.

Hypothesis lifo : forall b m, unMakeMove (makeMove b m) = b.

Variable mu : ChessBoard -> nat.

Hypothesis mu_moves :
  forall b m, In m (pseudoLegalMoves b) -> (mu (makeMove b m) <= mu b)%nat.

Hypothesis mu_tactical :
  forall b m, In m (tacticalMoves b) -> (mu (makeMove b m) < mu b)%nat.

Hypothesis raised_stays_raised :
  forall k, stop_at k = true -> stop_at (S k) = true.

(** Cancellation unwinds to 0. Under the provisos of the board discipline
    ([unMakeMove] undoes [makeMove], tactical lines are finite, fuel beyond
    depth plus measure) and with a stop flag that stays raised once raised,
    a call of [alphaBeta] or of [quiesce] returns, with its board restored
    and after at least one read of the flag; and if the flag was raised at
    any of the reads made by the call or below it, in particular if it was
    raised when the call was entered, the value returned is 0. *)
Theorem cancelled_search_unwinds_to_zero (fuel : nat)
        (depth alpha beta ply qdepth : Z) (s : Search) :
  0 <= depth <= INT32_MAX ->
  (Z.to_nat depth + mu (board s) + 1 < fuel)%nat ->
  (exists r s',
      alphaBeta fuel depth alpha beta ply s = Some (r, s') /\
      board s' = board s /\ (polls s < polls s')%nat /\
      ((exists n, (polls s <= n < polls s')%nat /\ stop_at n = true) ->
       r = 0) /\
      (stop_at (polls s) = true -> r = 0)) /\
  (exists r s',
      quiesce fuel alpha beta ply qdepth s = Some (r, s') /\
      board s' = board s /\ (polls s < polls s')%nat /\
      ((exists n, (polls s <= n < polls s')%nat /\ stop_at n = true) ->
       r = 0) /\
      (stop_at (polls s) = true -> r = 0)).
Proof.
  intros Hd Hf. split.
  - destruct (alphaBeta_restores lifo mu mu_moves mu_tactical fuel depth
                alpha beta ply s Hd Hf) as (r & s' & E & Hb).
    exists r, s'. split; [exact E|]. split; [exact Hb|].
    pose proof (alphaBeta_stopped fuel _ _ _ _ _ _ _ E) as [Hlt _].
    split; [exact Hlt|].
    assert (Z0 : (exists n, (polls s <= n < polls s')%nat /\ stop_at n = true)
                 -> r = 0).
    { intros (n & Hn & Hs).
      exact (stop_seen_gives_zero fuel depth alpha beta ply s r s' n
               raised_stays_raised (or_introl E) Hn Hs). }
    split; [exact Z0|].
    intros Hs. apply Z0. exists (polls s). split; [lia|exact Hs].
  - destruct (quiesce_restores lifo mu mu_tactical fuel alpha beta ply
                qdepth s ltac:(lia)) as (r & s' & E & Hb).
    exists r, s'. split; [exact E|]. split; [exact Hb|].
    pose proof (quiesce_stopped fuel _ _ _ _ _ _ _ E) as [Hlt _].
    split; [exact Hlt|].
    assert (Z0 : (exists n, (polls s <= n < polls s')%nat /\ stop_at n = true)
                 -> r = 0).
    { intros (n & Hn & Hs).
      exact (stop_seen_gives_zero fuel alpha beta ply qdepth s r s' n
               raised_stays_raised (or_intror E) Hn Hs). }
    split; [exact Z0|].
    intros Hs. apply Z0. exists (polls s). split; [lia|exact Hs].
Qed.

End CancellationUnwinds.

(** Game 1 with the flag raised after its first read: the depth-1 search is
    cancelled inside the first child and comes back with 0 and the root on
    the board. *)
Lemma cancelled_search_unwinds_to_zero_witness :
  exists s',
    @alphaBeta (tableGame game1_stopped) 5 1 (INT32_MIN + 1) INT32_MAX 0
               (freshSearch game1_stopped) = Some (0, s') /\
    board s' = [] /\ polls s' = 3%nat.
Proof.
  destruct (@cancelled_search_unwinds_to_zero (tableGame game1_stopped)
              (tableGame_lifo game1_stopped) game1_mu game1_mu_moves
              game1_mu_tactical
              (fun k H => match k return Nat.leb 1 k = true ->
                                         Nat.leb 1 (S k) = true with
                          | O => fun _ => eq_refl
                          | S _ => fun _ => eq_refl
                          end H)
              5 1 (INT32_MIN + 1) INT32_MAX 0 0 (freshSearch game1_stopped)
              ltac:(vm_compute; split; discriminate)
              ltac:(vm_compute; lia))
    as [(r & s' & E & Hb & Hlt & Hz & _) _].
  assert (P : polls s' = 3%nat).
  { pose proof E as E'. vm_compute in E'. injection E' as _ <-. reflexivity. }
  assert (r = 0) as ->.
  { apply Hz. exists 1%nat. rewrite P. split; [cbn; lia|reflexivity]. }
  exists s'. split; [exact E|]. split; [exact Hb|exact P].
Defined.

(** ** Every control path undoes its moves *)

Section BoardKept.

Context {C : Collaborators}.

Hypothesis lifo : forall b m, unMakeMove (makeMove b m) = b.

Lemma quiesceLoop_keeps rec beta ply depth :
  keeps_board rec ->
  forall n i moves alpha bestScore bestMove nodeType s r s',
    quiesceLoop rec beta ply depth n i moves alpha bestScore bestMove
                nodeType s = Some (r, s') ->
    board s' = board s.
Proof.
  intros Hrec. induction n as [|n IH];
    intros i moves alpha bestScore bestMove nodeType s r s' E.
  - rewrite quiesceLoop_end in E. injection E as _ <-. reflexivity.
  - destruct (selectMove moves i) as [m moves'] eqn:Es.
    rewrite (quiesceLoop_step _ _ _ _ _ _ _ _ _ _ _ _ _ _ Es) in E.
    cbv zeta in E.
    destruct (inCheck _ _).
    { apply IH in E. rewrite E. st_simpl. apply lifo. }
    destruct (rec _ _ _ _ _) as [[r1 s1]|] eqn:Er; [|discriminate].
    apply Hrec in Er. st_simpl. rewrite Er, lifo in E.
    destruct (stop_at (polls s1)); [injection E as _ <-; reflexivity|].
    destruct (beta <=? neg32 r1); [injection E as _ <-; reflexivity|].
    destruct (alpha <? neg32 r1); [apply IH in E; exact E|].
    destruct (bestScore <? neg32 r1); apply IH in E; exact E.
Qed.

Lemma quiesce_keeps (fuel : nat) : keeps_board (quiesce fuel).
Proof.
  induction fuel as [|fuel IH]; intros alpha beta ply depth s r s' E;
    [discriminate|].
  rewrite quiesce_unfold in E.
  destruct (stop_at (polls s)); [injection E as _ <-; reflexivity|].
  cbv zeta in E.
  destruct (beta <=? _); [injection E as _ <-; reflexivity|].
  match type of E with context [if ?c then _ else _] => destruct c end;
    [injection E as _ <-; reflexivity|].
  match type of E with context [getTransposition ?h ?d ?p ?sc ?a ?b ?m ?st] =>
    destruct (getTransposition_runs h d p sc a b m st) as (pr & t & Eg)
  end.
  rewrite Eg in E.
  destruct (hit pr); [injection E as _ <-; reflexivity|].
  cbv zeta in E. apply (quiesceLoop_keeps _ _ _ _ IH) in E. exact E.
Qed.

Lemma alphaBetaLoop_keeps rec depth beta ply :
  keeps_board rec ->
  forall n i moves alpha bestScore bestMove nodeType noStore hasLegalMoves
         s r s',
    alphaBetaLoop rec depth beta ply n i moves alpha bestScore bestMove
                  nodeType noStore hasLegalMoves s = Some (r, s') ->
    board s' = board s.
Proof.
  intros Hrec. induction n as [|n IH];
    intros i moves alpha bestScore bestMove nodeType noStore hasLegalMoves
           s r s' E.
  - rewrite alphaBetaLoop_end in E.
    destruct hasLegalMoves; [destruct noStore|destruct (inCheck _ _)];
      injection E as _ <-; reflexivity.
  - destruct (selectMove moves i) as [m moves'] eqn:Es.
    rewrite (alphaBetaLoop_step _ _ _ _ _ _ _ _ _ _ _ _ _ _ _ _ Es) in E.
    cbv zeta in E.
    destruct (inCheck _ _).
    { apply IH in E. rewrite E. st_simpl. apply lifo. }
    destruct (childScore _ _ _ _ _ _ _) as [[sc s1]|] eqn:Ec; [|discriminate].
    assert (Hb1 : board s1 = makeMove (board s) m).
    { destruct (fst (drawFlags _ _)).
      - rewrite childScore_draw in Ec. injection Ec as _ <-. reflexivity.
      - rewrite childScore_rec in Ec.
        destruct (rec _ _ _ _ _) as [[r1 s1']|] eqn:Er; [|discriminate].
        injection Ec as _ <-. apply Hrec in Er. exact Er. }
    rewrite Hb1, lifo in E.
    destruct (stop_at (polls s1)); [injection E as _ <-; reflexivity|].
    destruct (beta <=? sc).
    { match type of E with betaCutoff ?a ?b ?c ?d ?e ?f = _ =>
        destruct (betaCutoff_runs a b c d e f) as (s3 & E3 & Hb3 & _)
      end.
      rewrite E3 in E. injection E as _ <-. rewrite Hb3. reflexivity. }
    destruct (alpha <? sc); [apply IH in E; exact E|].
    destruct (bestScore <? sc); apply IH in E; exact E.
Qed.

Lemma alphaBeta_keeps (fuel : nat) : keeps_board (alphaBeta fuel).
Proof.
  induction fuel as [|fuel IH]; intros depth alpha beta ply s r s' E;
    [discriminate|].
  rewrite alphaBeta_unfold in E.
  destruct (stop_at (polls s)); [injection E as _ <-; reflexivity|].
  destruct (depth =? 0); [apply quiesce_keeps in E; exact E|].
  match type of E with context [getTransposition ?h ?d ?p ?sc ?a ?b ?m ?st] =>
    destruct (getTransposition_runs h d p sc a b m st) as (pr & t & Eg)
  end.
  rewrite Eg in E.
  destruct (hit pr); [injection E as _ <-; reflexivity|].
  cbv zeta in E.
  destruct (_ <=? _); [injection E as _ <-; reflexivity|].
  apply (alphaBetaLoop_keeps _ _ _ _ IH) in E. exact E.
Qed.

(** C9. Given that [unMakeMove] undoes [makeMove], every call of
    [alphaBeta] and of [quiesce] that returns, whatever the depth, the
    window, the table and the behaviour of the stop flag, returns with the
    board it received: illegal moves, moves scored as draws, cutoffs and
    cancelled returns all come after the matching [unMakeMove]. And the
    calls do return: when tactical lines are finite, as measured by [mu],
    fuel beyond the depth plus the measure of the position is enough for
    a result. *)
Theorem every_call_restores_the_board :
  (forall fuel depth alpha beta ply s r s',
      alphaBeta fuel depth alpha beta ply s = Some (r, s') ->
      board s' = board s) /\
  (forall fuel alpha beta ply depth s r s',
      quiesce fuel alpha beta ply depth s = Some (r, s') ->
      board s' = board s) /\
  (forall mu : ChessBoard -> nat,
      (forall b m, In m (pseudoLegalMoves b) ->
                   (mu (makeMove b m) <= mu b)%nat) ->
      (forall b m, In m (tacticalMoves b) ->
                   (mu (makeMove b m) < mu b)%nat) ->
      forall fuel depth alpha beta ply qdepth s,
        0 <= depth <= INT32_MAX ->
        (Z.to_nat depth + mu (board s) + 1 < fuel)%nat ->
        (exists r s', alphaBeta fuel depth alpha beta ply s = Some (r, s')) /\
        (exists r s', quiesce fuel alpha beta ply qdepth s = Some (r, s'))).
Proof.
  split; [|split].
  - intros fuel depth alpha beta ply s r s' E.
    exact (alphaBeta_keeps fuel _ _ _ _ _ _ _ E).
  - intros fuel alpha beta ply depth s r s' E.
    exact (quiesce_keeps fuel _ _ _ _ _ _ _ E).
  - intros mu Hm Ht fuel depth alpha beta ply qdepth s Hd Hf. split.
    + destruct (alphaBeta_restores lifo mu Hm Ht fuel depth alpha beta ply s
                  Hd Hf) as (r & s' & E & _).
      exists r, s'. exact E.
    + destruct (quiesce_restores lifo mu Ht fuel alpha beta ply qdepth s
                  ltac:(lia)) as (r & s' & E & _).
      exists r, s'. exact E.
Qed.

End BoardKept.

(** On game 1 with the stop flag raised after its first read, the depth-1
    search makes a move, is cancelled below it, and comes back with the
    root on the board; on game 1 itself the depth-1 search runs to its end
    and does the same. *)
Lemma every_call_restores_the_board_witness :
  (exists r s',
      @alphaBeta (tableGame game1_stopped) 5 1 (INT32_MIN + 1) INT32_MAX 0
                 (freshSearch game1_stopped) = Some (r, s') /\
      board s' = [] /\ polls s' = 3%nat) /\
  (exists r s',
      @alphaBeta (tableGame game1) 5 1 (INT32_MIN + 1) INT32_MAX 0
                 (freshSearch game1) = Some (r, s') /\
      board s' = [] /\ TT.writes (tt s') = 3).
Proof.
  split.
  - destruct (@every_call_restores_the_board (tableGame game1_stopped)
                (tableGame_lifo game1_stopped)) as (Hab & _ & Hret).
    destruct (Hret game1_mu game1_mu_moves game1_mu_tactical
                5%nat 1 (INT32_MIN + 1) INT32_MAX 0 0
                (freshSearch game1_stopped)
                ltac:(vm_compute; split; discriminate)
                ltac:(vm_compute; lia)) as [(r & s' & E) _].
    exists r, s'. split; [exact E|]. split; [exact (Hab _ _ _ _ _ _ _ _ E)|].
    pose proof E as E'. vm_compute in E'. injection E' as _ <-. reflexivity.
  - destruct (@every_call_restores_the_board (tableGame game1)
                (tableGame_lifo game1)) as (Hab & _ & Hret).
    destruct (Hret game1_mu game1_mu_moves game1_mu_tactical
                5%nat 1 (INT32_MIN + 1) INT32_MAX 0 0 (freshSearch game1)
                ltac:(vm_compute; split; discriminate)
                ltac:(vm_compute; lia)) as [(r & s' & E) _].
    exists r, s'. split; [exact E|]. split; [exact (Hab _ _ _ _ _ _ _ _ E)|].
    pose proof E as E'. vm_compute in E'. injection E' as _ <-. reflexivity.
Defined.

(** ** Draw by repetition *)

Section Repetition.

Context {C : Collaborators}.

(** One step of the scan when the entry at [j] is not the hash of the
    board. *)
Lemma repetitionLoop_iff (b : ChessBoard) :
  forall (n : nat) (j : Z),
    j <= INT32_MAX -> j < Z.of_nat n ->
    (repetitionLoop b n j 1 = true <->
     exists k : Z,
       0 <= k /\ 0 <= j - 2 * k /\
       (forall q, last (irreversibleIndices b) = Some q -> q < j - 2 * k) /\
       positionHistory b !! Z.to_nat (j - 2 * k) = Some (hashCode b)).
Proof.
  induction n as [|n IH]; intros j Hj Hn.
  - cbn [repetitionLoop]. split; [discriminate|].
    intros (k & Hk & Hjk & _). lia.
  - cbn [repetitionLoop].
    destruct (Z.leb_spec 0 j) as [H0|H0]; cbn [andb].
    2:{ split; [discriminate|]. intros (k & Hk & Hjk & _). lia. }
    assert (Down : repetitionLoop b n (sub32 j 2) 1 = true <->
                   exists k : Z,
                     1 <= k /\ 0 <= j - 2 * k /\
                     (forall q, last (irreversibleIndices b) = Some q ->
                                q < j - 2 * k) /\
                     positionHistory b !! Z.to_nat (j - 2 * k)
                     = Some (hashCode b)).
    { rewrite sub32_id by int_range.
      rewrite IH by (try int_range; lia).
      split; intros (k & Hk & Hjk & Hb & Hh).
      - exists (k + 1).
        replace (j - 2 * (k + 1)) with (j - 2 - 2 * k) by lia.
        repeat split; auto; lia.
      - exists (k - 1).
        replace (j - 2 - 2 * (k - 1)) with (j - 2 * k) by lia.
        repeat split; auto; lia. }
    assert (Bound : (match last (irreversibleIndices b) with
                     | Some q => q <? j
                     | None => true
                     end) = true <->
                    forall q, last (irreversibleIndices b) = Some q -> q < j).
    { destruct (last (irreversibleIndices b)) as [q|].
      - rewrite Z.ltb_lt. split.
        + intros H q' E. injection E as <-. exact H.
        + intros H. apply H. reflexivity.
      - split; [intros _ q E; discriminate|reflexivity]. }
    destruct (match last (irreversibleIndices b) with
              | Some q => q <? j
              | None => true
              end) eqn:Eb.
    2:{ split; [discriminate|]. intros (k & Hk & Hjk & Hb & _).
        assert (forall q, last (irreversibleIndices b) = Some q -> q < j).
        { intros q Hq. specialize (Hb q Hq). lia. }
        apply Bound in H. discriminate. }
    pose proof (proj1 Bound eq_refl) as Hb0.
    assert (Here : forall found : bool,
               (found = true <->
                positionHistory b !! Z.to_nat j = Some (hashCode b)) ->
               ((if (if found then add32 1 1 else 1) =? 2 then true
                 else repetitionLoop b n (sub32 j 2)
                                     (if found then add32 1 1 else 1)) = true
                <->
                exists k : Z,
                  0 <= k /\ 0 <= j - 2 * k /\
                  (forall q, last (irreversibleIndices b) = Some q ->
                             q < j - 2 * k) /\
                  positionHistory b !! Z.to_nat (j - 2 * k)
                  = Some (hashCode b))).
    { intros [|] Hfound.
      - change (add32 1 1 =? 2) with true. cbv iota.
        split; [intros _|reflexivity].
        exists 0. replace (j - 2 * 0) with j by lia.
        repeat split; auto; try lia. apply Hfound. reflexivity.
      - change (1 =? 2) with false. cbv iota. rewrite Down.
        split; intros (k & Hk & Hjk & Hb & Hh).
        + exists k. repeat split; auto; lia.
        + destruct (Z.eq_dec k 0) as [->|Hk0].
          * replace (j - 2 * 0) with j in Hh by lia.
            apply Hfound in Hh. discriminate.
          * exists k. repeat split; auto; lia. }
    apply Here.
    destruct (positionHistory b !! Z.to_nat j) as [h|].
    + rewrite Z.eqb_eq. split; [intros ->; reflexivity|].
      intros E. injection E as ->. reflexivity.
    + split; discriminate.
Qed.

(** The start of the scan, [positionHistory.size() - 4] computed on
    [size_t] and converted to [int], is the plain difference. *)
Lemma repetition_start (size : Z) :
  0 <= size <= INT32_MAX ->
  int32 (uint64 (size - 4)) = size - 4.
Proof.
  intros H. unfold int32, uint64.
  unfold INT32_MAX in H.
  destruct (Z.leb_spec 4 size).
  - rewrite (Z.mod_small (size - 4)) by lia.
    rewrite Z.mod_small by lia. lia.
  - replace ((size - 4) mod 18446744073709551616)
      with (size - 4 + 18446744073709551616).
    2:{ apply Z.mod_unique with (q := -1); lia. }
    replace (size - 4 + 18446744073709551616 + 2147483648)
      with (size - 4 + 2147483648 + 4294967296 * 4294967296) by lia.
    rewrite Z.mod_add by lia.
    rewrite Z.mod_small by lia. lia.
Qed.

(** What the repetition test of the move loop detects. With [b] the board
    after the move: the test answers [true] exactly when the hash of [b]
    occurs in the position history at an index that lies at least 4 and an
    even number of places before the end and after the last irreversible
    index. One earlier occurrence is enough. *)
Theorem repetition_draw_iff (b : ChessBoard) :
  Z.of_nat (length (positionHistory b)) <= INT32_MAX ->
  (threefoldDraw b = true <->
   exists j : nat,
     (j + 4 <= length (positionHistory b))%nat /\
     Nat.even (length (positionHistory b) - j) = true /\
     (forall q, last (irreversibleIndices b) = Some q -> q < Z.of_nat j) /\
     positionHistory b !! j = Some (hashCode b)).
Proof.
  intros Hsize. unfold threefoldDraw.
  set (size := length (positionHistory b)) in *.
  rewrite repetition_start by lia.
  rewrite repetitionLoop_iff by (try int_range; lia).
  split.
  - intros (k & Hk & Hjk & Hb & Hh).
    exists (Z.to_nat (Z.of_nat size - 4 - 2 * k)).
    split; [lia|]. split; [|split; [|exact Hh]].
    + replace (size - Z.to_nat (Z.of_nat size - 4 - 2 * k))%nat
        with (2 * Z.to_nat (k + 2))%nat by lia.
      rewrite Nat.even_mul. reflexivity.
    + intros q Hq. specialize (Hb q Hq). lia.
  - intros (j & Hj & He & Hb & Hh).
    apply Nat.even_spec in He. destruct He as [h He].
    exists (Z.of_nat h - 2).
    assert (Z.of_nat size - 4 - 2 * (Z.of_nat h - 2) = Z.of_nat j) as -> by lia.
    rewrite Nat2Z.id. repeat split; auto; lia.
Qed.

End Repetition.

(** On game 2, after the only move: the hash 77 of the new position stands
    at index 0 of the four-entry history, so the test fires. *)
Lemma repetition_draw_iff_witness :
  @threefoldDraw (tableGame game2) [1] = true.
Proof.
  apply (proj2 (@repetition_draw_iff (tableGame game2) [1]
                  ltac:(vm_compute; discriminate))).
  exists O. split; [vm_compute; lia|]. split; [reflexivity|].
  split; [intros q E; discriminate E|reflexivity].
Defined.

(** ** Alpha-beta against exhaustive minimax *)

Lemma fold_max_ge_base (a : Z) (l : list Z) : a <= fold_right Z.max a l.
Proof. induction l as [|x l IH]; simpl; lia. Qed.

Lemma fold_max_shift (a x : Z) (l : list Z) :
  fold_right Z.max (Z.max a x) l = Z.max x (fold_right Z.max a l).
Proof. induction l as [|y l IH]; simpl; lia. Qed.

Lemma fold_max_perm (a : Z) (l l' : list Z) :
  l ≡ₚ l' -> fold_right Z.max a l = fold_right Z.max a l'.
Proof. induction 1; simpl; lia. Qed.

Lemma fold_max_bounds (lo hi a : Z) (l : list Z) :
  lo <= a <= hi -> Forall (fun x => lo <= x <= hi) l ->
  lo <= fold_right Z.max a l <= hi.
Proof.
  intros Ha H. induction H as [|x l Hx _ IH]; simpl; lia.
Qed.

Lemma fold_max_head (v : Z) (vs : list Z) (a : Z) :
  fold_right Z.max a (v :: vs) = Z.max a (fold_right Z.max v vs).
Proof.
  simpl. revert v. induction vs as [|y vs IH]; intros v; simpl.
  - lia.
  - specialize (IH y). simpl in IH. pose proof (IH) as H.
    assert (fold_right Z.max v vs = Z.max v (fold_right Z.max v vs))
      by (pose proof (fold_max_ge_base v vs); lia).
    assert (E : forall c, Z.max y (fold_right Z.max c vs)
                          = Z.max c (fold_right Z.max y vs)).
    { intros c. clear. induction vs as [|z vs IH]; simpl; lia. }
    rewrite (E a), (E v). lia.
Qed.

Lemma filter_Permutation {A : Type} (f : A -> bool) (l l' : list A) :
  l ≡ₚ l' -> List.filter f l ≡ₚ List.filter f l'.
Proof.
  induction 1 as [|x l l' _ IH|x y l|l l' l'' _ IH1 _ IH2]; simpl.
  - reflexivity.
  - destruct (f x); [apply perm_skip|]; exact IH.
  - destruct (f x), (f y); try reflexivity. apply perm_swap.
  - etransitivity; eassumption.
Qed.

Section TableInvariants.

Context {C : Collaborators}.

Lemma Below_child (b : ChessBoard) (m : Move) (h : Z) :
  In m (pseudoLegalMoves b) \/ In m (tacticalMoves b) ->
  Below (makeMove b m) h -> Below b h.
Proof. intros Hm H. eapply Below_move; eassumption. Qed.

Lemma contains_entries (k : Z) (t : TT.Table) :
  TT.entries (snd (TT.contains TT_SIZE k t)) = TT.entries t.
Proof. unfold TT.contains. cbn [snd]. destruct (_ && _); reflexivity. Qed.

Lemma no_entry_contains (t : TT.Table) (b : ChessBoard) :
  no_entry_below t b ->
  fst (TT.contains TT_SIZE (hashCode b) t) = false.
Proof.
  intros H. unfold TT.contains. cbn [fst].
  destruct (TT.NodeType_eqb _ _) eqn:E1; [reflexivity|]. cbn [negb andb].
  destruct (Z.eqb_spec (TT.key (TT.entries t (TT.slot TT_SIZE (hashCode b))))
                       (hashCode b)) as [E2|]; [|reflexivity].
  exfalso. apply (H (TT.slot TT_SIZE (hashCode b))).
  - intros E. rewrite E in E1. discriminate.
  - rewrite E2. constructor.
Qed.

(** A probe of a position the table holds nothing for is a miss: the
    window and the hint are handed back unchanged. *)
Lemma getTransposition_miss depth ply sc alpha beta hashMove s :
  no_entry_below (tt s) (board s) ->
  exists t,
    getTransposition (hashCode (board s)) depth ply sc alpha beta hashMove s
    = Some (mkProbe false sc alpha beta hashMove, with_tt s t) /\
    TT.entries t = TT.entries (tt s).
Proof.
  intros H. unfold getTransposition, bind, tt_contains, ret. cbv zeta.
  rewrite (no_entry_contains _ _ H).
  eexists. split; [reflexivity|]. apply contains_entries.
Qed.

Lemma no_entry_below_entries (t t' : TT.Table) (b : ChessBoard) :
  TT.entries t' = TT.entries t -> no_entry_below t b -> no_entry_below t' b.
Proof. intros E H i. rewrite E. apply H. Qed.

Lemma grown_below_refl (t t' : TT.Table) (b : ChessBoard) :
  TT.entries t' = TT.entries t -> grown_below t t' b.
Proof. intros E i _. left. rewrite E. reflexivity. Qed.

Lemma grown_below_trans (t t1 t2 : TT.Table) (b c : ChessBoard) :
  (forall h, Below c h -> Below b h) ->
  grown_below t t1 b -> grown_below t1 t2 c -> grown_below t t2 b.
Proof.
  intros Hcb H1 H2 i Hi.
  destruct (H2 i Hi) as [E|Hc]; [|right; apply Hcb, Hc].
  rewrite E in *. apply H1. exact Hi.
Qed.

(** Storing an entry for the position itself. *)
Lemma grown_below_setEntry (t : TT.Table) (b : ChessBoard) (e : TT.Entry)
      (ply : Z) :
  TT.key e = hashCode b ->
  grown_below t (TT.setEntry TT_SIZE (hashCode b) e ply t) b.
Proof.
  intros Hk i Hi.
  destruct (setEntry_cases TT_SIZE (hashCode b) e ply t) as [E|E].
  - left. rewrite E. reflexivity.
  - rewrite E in *.
    destruct (Z.eq_dec i (TT.slot TT_SIZE (hashCode b))) as [->|Hne].
    + right. rewrite write_slot, normalize_key, Hk. constructor.
    + left. apply write_other. exact Hne.
Qed.

End TableInvariants.
